(** * Tagmatter: the tag / frontmatter reconciliation engine of [src/main.ts]

    A shallow embedding of the string-processing core of the Obsidian plugin
    (the methods [parseFrontmatter], [getExistingTags], [removeTags],
    [buildFrontmatterWithTags], [extractInlineTags], [arraysEqual] and the
    decision logic of [syncTagsToFrontmatter]) together with the properties
    the specification states about them.

    JavaScript strings are sequences of UTF-16 code units; they are modelled
    as [list N].  The vault read and write of [syncTagsToFrontmatter] are
    factored out: the model takes the file content and returns [Some] of the
    content handed to [vault.modify], or [None] when the method returns
    without writing (the specification's NO_CHANGE).  The re-entrancy guard
    over [this.processing] and the debounce timers schedule the calls and do
    not take part in the computation on the content; they are not modelled. *)

From Stdlib Require Import List NArith Bool Ascii String Lia Arith.
From Stdlib Require Import Sorted Permutation.
Import ListNotations.

Local Open Scope string_scope.
Local Open Scope N_scope.
Local Open Scope list_scope.

(** ** JavaScript string primitives used by the plugin *)

Module JS.

Definition codeUnit := N.
Definition jsString := list codeUnit.

(** Literals: a Rocq string read as its sequence of code units. *)
Definition js (s : string) : jsString :=
  map N_of_ascii (list_ascii_of_string s).

Definition LF : codeUnit := 10.

(** [a === b] on strings. *)
Fixpoint strEq (a b : jsString) : bool :=
  match a, b with
  | [], [] => true
  | x :: a', y :: b' => (x =? y) && strEq a' b'
  | _, _ => false
  end.

(** Truthiness of a string: [if (s)] holds for the non-empty ones. *)
Definition truthy (s : jsString) : bool :=
  match s with [] => false | _ :: _ => true end.

(** ECMAScript WhiteSpace and LineTerminator code points: the set stripped by
    [String.prototype.trim] and matched by [\s]. *)
Definition isWhiteSpace (c : codeUnit) : bool :=
  (c =? 9) || (c =? 10) || (c =? 11) || (c =? 12) || (c =? 13) || (c =? 32)
  || (c =? 160) || (c =? 5760) || ((8192 <=? c) && (c <=? 8202))
  || (c =? 8232) || (c =? 8233) || (c =? 8239) || (c =? 8287)
  || (c =? 12288) || (c =? 65279).

(** LineTerminator code points: the ones [.] does not match. *)
Definition isLineTerminator (c : codeUnit) : bool :=
  (c =? 10) || (c =? 13) || (c =? 8232) || (c =? 8233).

(** [\w] without the [i] and [u] flags: ASCII letters, digits, underscore. *)
Definition isWordChar (c : codeUnit) : bool :=
  ((48 <=? c) && (c <=? 57)) || ((65 <=? c) && (c <=? 90)) || (c =? 95)
  || ((97 <=? c) && (c <=? 122)).

Fixpoint takeWhile {A} (p : A -> bool) (l : list A) : list A :=
  match l with
  | [] => []
  | x :: r => if p x then x :: takeWhile p r else []
  end.

Fixpoint dropWhile {A} (p : A -> bool) (l : list A) : list A :=
  match l with
  | [] => []
  | x :: r => if p x then dropWhile p r else l
  end.

Definition trimStart (s : jsString) : jsString := dropWhile isWhiteSpace s.
Definition trimEnd (s : jsString) : jsString := rev (dropWhile isWhiteSpace (rev s)).

(** [s.trim()] *)
Definition trim (s : jsString) : jsString := trimEnd (trimStart s).

(** [stripPrefix p s] is [Some r] when [s = p ++ r]. *)
Fixpoint stripPrefix (p s : jsString) : option jsString :=
  match p with
  | [] => Some s
  | x :: p' =>
      match s with
      | [] => None
      | y :: s' => if x =? y then stripPrefix p' s' else None
      end
  end.

(** [s.startsWith(p)] *)
Definition startsWith (p s : jsString) : bool :=
  match stripPrefix p s with Some _ => true | None => false end.

(** [s.substring(1)] *)
Definition substring1 (s : jsString) : jsString := tl s.

(** [s.split(sep)] for a one-unit separator: never returns the empty array,
    the empty string splits into one empty piece. *)
Fixpoint split (sep : codeUnit) (s : jsString) : list jsString :=
  match s with
  | [] => [[]]
  | c :: r =>
      if c =? sep then [] :: split sep r
      else match split sep r with
           | [] => [[c]]
           | piece :: pieces => (c :: piece) :: pieces
           end
  end.

(** [pieces.join(sep)] *)
Fixpoint join (sep : jsString) (pieces : list jsString) : jsString :=
  match pieces with
  | [] => []
  | [p] => p
  | p :: rest => p ++ sep ++ join sep rest
  end.

(** [s.toLowerCase()] on the ASCII range.  The plugin only lowers captures of
    [[\w\-]+], which contain ASCII letters, digits, [_] and [-] only, where
    the Unicode lowering is exactly this map. *)
Definition lowerUnit (c : codeUnit) : codeUnit :=
  if (65 <=? c) && (c <=? 90) then c + 32 else c.
Definition toLowerCase (s : jsString) : jsString := map lowerUnit s.

(** [a <= b] in the order of [Array.prototype.sort] without a comparator:
    lexicographic on code units. *)
Fixpoint strLe (a b : jsString) : bool :=
  match a, b with
  | [], _ => true
  | _ :: _, [] => false
  | x :: a', y :: b' => (x <? y) || ((x =? y) && strLe a' b')
  end.

Fixpoint insertSorted (x : jsString) (l : list jsString) : list jsString :=
  match l with
  | [] => [x]
  | y :: r => if strLe x y then x :: l else y :: insertSorted x r
  end.

(** [[...a].sort()]: the input in ascending code-unit order.  Strings that
    compare equal are identical, so the result does not depend on the sorting
    algorithm of the engine. *)
Fixpoint sort (l : list jsString) : list jsString :=
  match l with
  | [] => []
  | x :: r => insertSorted x (sort r)
  end.

Definition mem (x : jsString) (l : list jsString) : bool := existsb (strEq x) l.

(** [Array.from(new Set(a))]: first occurrences, in insertion order. *)
Fixpoint dedupeFrom (seen : list jsString) (l : list jsString) : list jsString :=
  match l with
  | [] => []
  | x :: r => if mem x seen then dedupeFrom seen r else x :: dedupeFrom (x :: seen) r
  end.
Definition dedupe (l : list jsString) : list jsString := dedupeFrom [] l.

End JS.

(** ** The plugin *)

Module Tagmatter.
Import JS.

Record Parsed := mkParsed {
  frontmatterText : jsString;
  bodyText : jsString;
  hasFrontmatter : bool
}.

(** The part of [frontmatterRegex] after the lazy group: [\n---\n]. *)
Definition closeDelim : jsString := LF :: js "---" ++ [LF].
(** The delimiter line [---\n]: the anchored head of [frontmatterRegex], and
    the piece the template literals of [syncTagsToFrontmatter] put before and
    after the new metadata text. *)
Definition openDelim : jsString := js "---" ++ [LF].

Arguments closeDelim : simpl never.
Arguments openDelim : simpl never.

(** The lazy first group of [frontmatterRegex] (any units, as few as possible)
    followed by [\n---\n] and the greedy second group: the first group is
    extended one unit at a time until [\n---\n] follows; the second group
    then takes everything up to the end of input. *)
Fixpoint lazyUntilClose (s : jsString) : option (jsString * jsString) :=
  match stripPrefix closeDelim s with
  | Some body => Some ([], body)
  | None =>
      match s with
      | [] => None
      | c :: r =>
          match lazyUntilClose r with
          | Some (fm, body) => Some (c :: fm, body)
          | None => None
          end
      end
  end.

(** [parseFrontmatter(content)]: the regex is anchored at both ends and reads
    [---\n], the lazy group, [\n---\n], the greedy group. *)
Definition parseFrontmatter (content : jsString) : Parsed :=
  match stripPrefix openDelim content with
  | Some rest =>
      match lazyUntilClose rest with
      | Some (fm, body) => mkParsed fm body true
      | None => mkParsed [] content false
      end
  | None => mkParsed [] content false
  end.

(** [trimmed === 'tags:' || trimmed.startsWith('tags:')] *)
Definition isTagsKey (trimmed : jsString) : bool :=
  strEq trimmed (js "tags:") || startsWith (js "tags:") trimmed.

(** The capture of the greedy dot-star group that a closing bracket follows:
    the group takes the longest run without a line terminator and gives back
    units until a closing bracket follows. *)
Fixpoint upToLastBracket (run : jsString) : option jsString :=
  match run with
  | [] => None
  | c :: r =>
      match upToLastBracket r with
      | Some cap => Some (c :: cap)
      | None => if c =? 93 then Some [] else None
      end
  end.

(** The inline-array pattern ([tags:], white space, an opening bracket, the
    dot-star group, a closing bracket) tried at the start of [s]. *)
Definition inlineArrayAt (s : jsString) : option jsString :=
  match stripPrefix (js "tags:") s with
  | Some r =>
      match dropWhile isWhiteSpace r with
      | c :: r' =>
          if c =? 91
          then upToLastBracket (takeWhile (fun u => negb (isLineTerminator u)) r')
          else None
      | [] => None
      end
  | None => None
  end.

(** [trimmed.match(...)] with the inline-array pattern: the pattern is not
    anchored, the leftmost start position that matches wins; the result is
    group 1. *)
Fixpoint inlineArrayMatch (s : jsString) : option jsString :=
  match inlineArrayAt s with
  | Some cap => Some cap
  | None =>
      match s with
      | [] => None
      | _ :: r => inlineArrayMatch r
      end
  end.

(** [t.replace(..., '')] with the global pattern of the two quote characters:
    every single quote (39) and double quote (34) is deleted. *)
Definition stripQuotes (t : jsString) : jsString :=
  filter (fun c => negb ((c =? 39) || (c =? 34))) t.

(** [inlineMatch[1].split(',')], each piece trimmed and stripped of quotes,
    then [.filter(t => t.length > 0)]. *)
Definition inlineArrayTags (cap : jsString) : list jsString :=
  filter truthy (map (fun t => stripQuotes (trim t)) (split 44 cap)).

(** The [for (const line of lines)] loop of [getExistingTags]; [tags] is the
    array built so far. *)
Fixpoint readLines (lines : list jsString) (inTagsSection : bool)
    (tags : list jsString) : list jsString :=
  match lines with
  | [] => tags
  | line :: rest =>
      let trimmed := trim line in
      if isTagsKey trimmed then
        match inlineArrayMatch trimmed with
        | Some cap => inlineArrayTags cap
        | None => readLines rest true tags
        end
      else if inTagsSection then
        if startsWith (js "-") trimmed then
          let tag := trim (substring1 trimmed) in
          readLines rest true (if truthy tag then tags ++ [tag] else tags)
        else if truthy trimmed && negb (startsWith (js " ") trimmed)
                && negb (startsWith (js "-") trimmed)
        then tags
        else readLines rest true tags
      else readLines rest false tags
  end.

Definition getExistingTags (frontmatterText : jsString) : list jsString :=
  if negb (truthy frontmatterText) then []
  else readLines (split LF frontmatterText) false [].

(** The loop of [removeTags]; the result is [newLines]. *)
Fixpoint removeLines (lines : list jsString) (inTagsSection : bool)
    : list jsString :=
  match lines with
  | [] => []
  | line :: rest =>
      let trimmed := trim line in
      if isTagsKey trimmed then removeLines rest true
      else if inTagsSection && startsWith (js "-") trimmed
      then removeLines rest inTagsSection
      else
        let inTagsSection' :=
          if inTagsSection && truthy trimmed
             && negb (startsWith (js "-") trimmed)
             && negb (startsWith (js " ") trimmed)
          then false else inTagsSection in
        if negb inTagsSection' then line :: removeLines rest inTagsSection'
        else removeLines rest inTagsSection'
  end.

Definition removeTags (frontmatterText : jsString) : jsString :=
  join [LF] (removeLines (split LF frontmatterText) false).

(** [`  - ${tag}`] *)
Definition tagLine (tag : jsString) : jsString := js "  - " ++ tag.

(** The loop of [buildFrontmatterWithTags]: [newLines] and [tagsInserted]. *)
Fixpoint rebuildLines (lines : list jsString) (tags : list jsString)
    (inTagsSection : bool) : list jsString * bool :=
  match lines with
  | [] => ([], false)
  | line :: rest =>
      let trimmed := trim line in
      if isTagsKey trimmed then
        let (newLines, _) := rebuildLines rest tags true in
        (js "tags:" :: map tagLine tags ++ newLines, true)
      else if inTagsSection && startsWith (js "-") trimmed
      then rebuildLines rest tags inTagsSection
      else
        let inTagsSection' :=
          if inTagsSection && truthy trimmed
             && negb (startsWith (js "-") trimmed)
             && negb (startsWith (js " ") trimmed)
          then false else inTagsSection in
        let (newLines, tagsInserted) := rebuildLines rest tags inTagsSection' in
        if negb inTagsSection' then (line :: newLines, tagsInserted)
        else (newLines, tagsInserted)
  end.

Definition buildFrontmatterWithTags (frontmatterText : jsString)
    (tags : list jsString) (hadFrontmatter : bool) : jsString :=
  if negb hadFrontmatter || negb (truthy frontmatterText) then
    js "tags:" ++ [LF] ++ join [LF] (map tagLine tags) ++ [LF]
  else
    let (newLines, tagsInserted) :=
      rebuildLines (split LF frontmatterText) tags false in
    if negb tagsInserted then
      join [LF] ((js "tags:" :: map tagLine tags) ++ newLines) ++ [LF]
    else join [LF] newLines ++ [LF].

(** [[\w\-]] *)
Definition isTagChar (c : codeUnit) : bool := isWordChar c || (c =? 45).

(** The captures of the successive [tagRegex.exec(content)] calls for
    [/#([\w\-]+)/g].  After a match the scan resumes behind the capture; the
    units of the capture are not [#], so resuming right behind the [#] finds
    the same later matches (lemma [tagMatches_resume]). *)
Fixpoint tagMatches (content : jsString) : list jsString :=
  match content with
  | [] => []
  | c :: r =>
      if c =? 35 then
        match takeWhile isTagChar r with
        | [] => tagMatches r
        | capture => capture :: tagMatches r
        end
      else tagMatches r
  end.

Definition extractInlineTags (lowercaseTags : bool) (content : jsString)
    : list jsString :=
  let tags :=
    map (fun tag => if lowercaseTags then toLowerCase tag else tag)
        (filter (fun tag => truthy tag && (0 <? N.of_nat (List.length tag)))
                (tagMatches content)) in
  dedupe tags.

Fixpoint arraysEqualFrom (a b : list jsString) : bool :=
  match a, b with
  | [], _ => true
  | x :: a', y :: b' => if negb (strEq x y) then false else arraysEqualFrom a' b'
  | _ :: _, [] => false
  end.

Definition arraysEqual (a b : list jsString) : bool :=
  if negb (Nat.eqb (List.length a) (List.length b)) then false
  else arraysEqualFrom a b.

(** The decision logic of [syncTagsToFrontmatter] on the content read from
    the vault: [Some newContent] when [vault.modify] is called. *)
Definition syncTagsToFrontmatter (lowercaseTags : bool) (content : jsString)
    : option jsString :=
  let inlineTags := extractInlineTags lowercaseTags content in
  let p := parseFrontmatter content in
  let existingTags := getExistingTags (frontmatterText p) in
  let sortedInlineTags := sort inlineTags in
  let sortedExisting := sort existingTags in
  if arraysEqual sortedExisting sortedInlineTags then None
  else if Nat.eqb (List.length inlineTags) 0 then
    if hasFrontmatter p then
      let newFrontmatterText := removeTags (frontmatterText p) in
      if truthy (trim newFrontmatterText)
      then Some (openDelim ++ newFrontmatterText ++ openDelim ++ bodyText p)
      else Some (bodyText p)
    else None
  else
    let newFrontmatterText :=
      buildFrontmatterWithTags (frontmatterText p) sortedInlineTags
                               (hasFrontmatter p) in
    if hasFrontmatter p
    then Some (openDelim ++ newFrontmatterText ++ openDelim ++ bodyText p)
    else Some (openDelim ++ newFrontmatterText ++ openDelim ++ content).

End Tagmatter.

Import JS Tagmatter.

(** ** Vocabulary of the statements *)

(** Documents in examples are written line by line. *)
Definition text (lines : list string) : jsString := join [LF] (map js lines).

(** The order of [sort] as a relation. *)
Definition le_str (a b : jsString) : Prop := strLe a b = true.

(** The three tests the loops apply to the trimmed line. *)
Definition isKey (line : jsString) : bool := isTagsKey (trim line).
Definition isItem (line : jsString) : bool := startsWith (js "-") (trim line).
Definition isBlank (line : jsString) : bool := negb (truthy (trim line)).

(** Lines that keep a tag section open once it is entered. *)
Definition sectionLine (line : jsString) : bool :=
  isKey line || isItem line || isBlank line.

(** [before] holds the lines above [line], nearest first.  The line lies in a
    tag section when the unbroken run of tag-key, list-item and blank lines
    that ends with it contains a tag-key line. *)
Definition inTagSection (before : list jsString) (line : jsString) : bool :=
  existsb isKey (takeWhile sectionLine (line :: before)).

(** The lines outside every tag section, in their original order. *)
Fixpoint keptLines (before lines : list jsString) : list jsString :=
  match lines with
  | [] => []
  | line :: rest =>
      (if inTagSection before line then [] else [line])
      ++ keptLines (line :: before) rest
  end.

(** [line] starts with white space. *)
Definition indented (line : jsString) : bool :=
  match line with c :: _ => isWhiteSpace c | [] => false end.

(** Every line that ends a tag section starts at the left margin. *)
Fixpoint sectionsEndAtMargin (before lines : list jsString) : bool :=
  match lines with
  | [] => true
  | line :: rest =>
      match before with
      | prev :: above =>
          negb (inTagSection above prev && negb (sectionLine line)
                && indented line)
      | [] => true
      end
      && sectionsEndAtMargin (line :: before) rest
  end.

(** The metadata text is a tag-key line followed by list-item lines (blank
    lines among them are tolerated): a tag list and no other field. *)
Definition onlyTagList (frontmatterText : jsString) : bool :=
  match split LF frontmatterText with
  | key :: items =>
      isKey key && forallb (fun l => isItem l || isBlank l) items
  | [] => false
  end.

(** The lines [buildFrontmatterWithTags] joins. *)
Definition builtLines (frontmatterText : jsString) (tags : list jsString)
    (hadFrontmatter : bool) : list jsString :=
  if negb hadFrontmatter || negb (truthy frontmatterText)
  then js "tags:" :: map tagLine tags
  else
    let (newLines, tagsInserted) :=
      rebuildLines (split LF frontmatterText) tags false in
    if negb tagsInserted then (js "tags:" :: map tagLine tags) ++ newLines
    else newLines.

(** A tag as the extractor produces it: a non-empty run of [[\w\-]] units. *)
Definition goodTag (t : jsString) : Prop :=
  t <> [] /\ Forall (fun c => isTagChar c = true) t.

(** The run of list-item and blank lines at the head of [rest] is not
    followed by a tag-key line. *)
Definition closes (rest : list jsString) : bool :=
  match dropWhile (fun l => isItem l || isBlank l) rest with
  | [] => true
  | e :: _ => negb (isKey e)
  end.

(** The section of the first tag-key line is not directly followed by a
    second tag-key line. *)
Fixpoint firstSectionCloses (lines : list jsString) : bool :=
  match lines with
  | [] => true
  | l :: r => if isKey l then closes r else firstSectionCloses r
  end.

(** The first non-blank line is not a list item. *)
Definition leadOK (lines : list jsString) : bool :=
  match dropWhile isBlank lines with
  | [] => true
  | l :: _ => negb (isItem l)
  end.

(** The line holds no [#] token. *)
Definition tokenFree (line : jsString) : bool :=
  match tagMatches line with [] => true | _ :: _ => false end.

(** No line that lies in a tag section holds a [#] token. *)
Fixpoint sectionsTokenFree (before lines : list jsString) : bool :=
  match lines with
  | [] => true
  | line :: rest =>
      (negb (inTagSection before line) || tokenFree line)
      && sectionsTokenFree (line :: before) rest
  end.

(** Metadata text on which a rewrite of the tag list can be read back: the
    lines of its tag sections hold no [#] token, the section of the first
    tag-key line is not directly followed by a second tag-key line and, when
    there is no tag-key line, the first non-blank line is not a list item. *)
Definition wellFormedMeta (frontmatterText : jsString) : bool :=
  let lines := split LF frontmatterText in
  sectionsTokenFree [] lines
  && (if existsb isKey lines then firstSectionCloses lines else leadOK lines).

(** The documents on which the result of a sync is read back as it was
    written.  Without a block nothing is required.  With a block and at
    least one inline tag, the metadata text is well formed.  With a block
    and no inline tag, removing the tag section leaves only white space (the
    whole block is deleted) and the body does not start with a block of its
    own that records a tag. *)
Definition readableRewrite (lowercaseTags : bool) (content : jsString) : bool :=
  let p := parseFrontmatter content in
  if hasFrontmatter p then
    match extractInlineTags lowercaseTags content with
    | [] =>
        negb (truthy (trim (removeTags (frontmatterText p))))
        && match getExistingTags
                   (frontmatterText (parseFrontmatter (bodyText p))) with
           | [] => true
           | _ :: _ => false
           end
    | _ :: _ => wellFormedMeta (frontmatterText p)
    end
  else true.

(** The form in which [extractInlineTags] stores a capture. *)
Definition normalise (lowercaseTags : bool) (w : jsString) : jsString :=
  if lowercaseTags then toLowerCase w else w.

(** [content] holds, behind [a], a [#] followed by the run [w] of tag
    characters, and the run cannot be extended into [b]. *)
Definition tokenAt (content a w b : jsString) : Prop :=
  content = a ++ 35 :: w ++ b /\ w <> []
  /\ Forall (fun c => isTagChar c = true) w
  /\ match b with [] => True | c :: _ => isTagChar c = false end.

(** An ASCII capital letter. *)
Definition isUpperUnit (c : codeUnit) : bool := (65 <=? c) && (c <=? 90).


(** The list-item lines of [tags], each with its line break. *)
Definition tagLinesText (tags : list jsString) : jsString :=
  List.concat (map (fun t => tagLine t ++ [LF]) tags).

(** The condition of [wellFormedMeta] on the place of the tag section. *)
Definition sectionCloses (lines : list jsString) : bool :=
  if existsb isKey lines then firstSectionCloses lines else leadOK lines.

(** No tag-key line of [lines] holds an inline array. *)
Definition blockForm (lines : list jsString) : bool :=
  forallb (fun l => negb (isKey l)
                    || match inlineArrayMatch (trim l) with
                       | Some _ => false
                       | None => true
                       end) lines.


(** ** Facts about the string primitives *)

Section StringFacts.

Lemma strEq_eq (a b : jsString) : strEq a b = true <-> a = b.
Proof.
  revert b; induction a as [|x a IH]; intros [|y b]; simpl; split;
    try congruence; try reflexivity.
  - intros H. apply andb_true_iff in H as [Hx Hr].
    apply N.eqb_eq in Hx. apply IH in Hr. congruence.
  - intros H. injection H as -> ->. rewrite N.eqb_refl. simpl. now apply IH.
Qed.

Lemma strEq_refl (a : jsString) : strEq a a = true.
Proof. now apply strEq_eq. Qed.

Lemma strEq_neq (a b : jsString) : strEq a b = false <-> a <> b.
Proof.
  split.
  - intros H E. apply strEq_eq in E. congruence.
  - intros H. destruct (strEq a b) eqn:E; [|reflexivity].
    apply strEq_eq in E. contradiction.
Qed.

Lemma stripPrefix_Some (p s r : jsString) :
  stripPrefix p s = Some r <-> s = p ++ r.
Proof.
  revert s; induction p as [|x p IH]; intros s; simpl.
  - split; congruence.
  - destruct s as [|y s]; [split; discriminate|].
    destruct (N.eqb_spec x y) as [->|Hne].
    + rewrite IH. split; congruence.
    + split; [discriminate|]. intros H. injection H as E _. congruence.
Qed.

Lemma stripPrefix_app (p r : jsString) : stripPrefix p (p ++ r) = Some r.
Proof. now apply stripPrefix_Some. Qed.

Lemma startsWith_true (p s : jsString) :
  startsWith p s = true <-> exists r, s = p ++ r.
Proof.
  unfold startsWith. destruct (stripPrefix p s) as [r|] eqn:E.
  - apply stripPrefix_Some in E. split; eauto.
  - split; [discriminate|]. intros [r Hr].
    apply stripPrefix_Some in Hr. congruence.
Qed.

Lemma takeWhile_dropWhile {A} (p : A -> bool) (l : list A) :
  takeWhile p l ++ dropWhile p l = l.
Proof.
  induction l as [|x l IH]; simpl; [reflexivity|].
  destruct (p x); simpl; congruence.
Qed.

Lemma takeWhile_Forall {A} (p : A -> bool) (l : list A) :
  Forall (fun x => p x = true) (takeWhile p l).
Proof.
  induction l as [|x l IH]; simpl; [constructor|].
  destruct (p x) eqn:E; constructor; assumption.
Qed.

Lemma takeWhile_app_stop {A} (p : A -> bool) (l r : list A) :
  Forall (fun x => p x = true) l ->
  match r with [] => True | y :: _ => p y = false end ->
  takeWhile p (l ++ r) = l.
Proof.
  induction 1 as [|x l Hx _ IH]; simpl; intros Hr.
  - destruct r as [|y r]; simpl; [reflexivity|]. now rewrite Hr.
  - rewrite Hx. f_equal. auto.
Qed.

(** *** The order of [sort] *)

Lemma strLe_refl (a : jsString) : strLe a a = true.
Proof.
  induction a as [|x a IH]; simpl; [reflexivity|].
  rewrite N.eqb_refl, IH. apply orb_true_r.
Qed.

Lemma strLe_total (a b : jsString) : strLe a b = false -> strLe b a = true.
Proof.
  revert b; induction a as [|x a IH]; intros [|y b]; simpl;
    try congruence; try reflexivity.
  intros H. apply orb_false_iff in H as [Hlt H].
  apply N.ltb_ge in Hlt.
  destruct (N.eqb_spec x y) as [->|Hne]; simpl in H.
  - rewrite N.eqb_refl, (IH _ H). apply orb_true_r.
  - assert (y < x) as Hl by lia. apply N.ltb_lt in Hl. now rewrite Hl.
Qed.

Lemma strLe_antisym (a b : jsString) :
  strLe a b = true -> strLe b a = true -> a = b.
Proof.
  revert b; induction a as [|x a IH]; intros [|y b]; simpl;
    try congruence; try reflexivity.
  intros H1 H2.
  apply orb_true_iff in H1 as [H1|H1]; apply orb_true_iff in H2 as [H2|H2];
    try apply N.ltb_lt in H1; try apply N.ltb_lt in H2;
    try apply andb_true_iff in H1 as [E1 R1];
    try apply andb_true_iff in H2 as [E2 R2];
    try apply N.eqb_eq in E1; try apply N.eqb_eq in E2; try lia.
  subst. f_equal. auto.
Qed.

Lemma strLe_trans (a b c : jsString) :
  strLe a b = true -> strLe b c = true -> strLe a c = true.
Proof.
  revert b c; induction a as [|x a IH]; intros [|y b] [|z c]; simpl;
    try congruence; try reflexivity.
  intros H1 H2.
  apply orb_true_iff in H1 as [H1|H1]; apply orb_true_iff in H2 as [H2|H2];
    try apply N.ltb_lt in H1; try apply N.ltb_lt in H2;
    try apply andb_true_iff in H1 as [E1 R1];
    try apply andb_true_iff in H2 as [E2 R2];
    try apply N.eqb_eq in E1; try apply N.eqb_eq in E2; subst;
    apply orb_true_iff.
  - left. apply N.ltb_lt. lia.
  - left. now apply N.ltb_lt.
  - left. now apply N.ltb_lt.
  - right. rewrite N.eqb_refl. simpl. eauto.
Qed.

Lemma insertSorted_perm (x : jsString) (l : list jsString) :
  Permutation (x :: l) (insertSorted x l).
Proof.
  induction l as [|y l IH]; simpl; [reflexivity|].
  destruct (strLe x y); [reflexivity|].
  rewrite perm_swap. now constructor.
Qed.

Lemma sort_perm (l : list jsString) : Permutation l (sort l).
Proof.
  induction l as [|x l IH]; simpl; [constructor|].
  rewrite <- insertSorted_perm. now constructor.
Qed.

Lemma insertSorted_sorted (x : jsString) (l : list jsString) :
  Sorted le_str l -> Sorted le_str (insertSorted x l).
Proof.
  induction 1 as [|y l Hs IH Hd]; simpl.
  - repeat constructor.
  - destruct (strLe x y) eqn:E.
    + constructor; [now constructor|]. now constructor.
    + constructor; [assumption|].
      apply strLe_total in E.
      destruct l as [|z l]; simpl.
      * now constructor.
      * inversion Hd; subst. destruct (strLe x z); now constructor.
Qed.

Lemma sort_sorted (l : list jsString) : Sorted le_str (sort l).
Proof.
  induction l as [|x l IH]; simpl; [constructor|].
  now apply insertSorted_sorted.
Qed.

Lemma sort_of_sorted (l : list jsString) : Sorted le_str l -> sort l = l.
Proof.
  induction 1 as [|x l Hs IH Hd]; simpl; [reflexivity|].
  rewrite IH. destruct Hd as [|y l Hxy]; simpl; [reflexivity|].
  unfold le_str in Hxy. now rewrite Hxy.
Qed.

(** Two sorted arrangements of the same entries coincide: whatever sorting
    algorithm the engine runs, the result is [sort]. *)
Lemma sorted_perm_unique (l1 l2 : list jsString) :
  Sorted le_str l1 -> Sorted le_str l2 -> Permutation l1 l2 -> l1 = l2.
Proof.
  assert (forall l, Sorted le_str l -> StronglySorted le_str l) as Hstrong.
  { intros l. apply Sorted_StronglySorted.
    intros a b c. apply strLe_trans. }
  intros H1 H2. apply Hstrong in H1, H2. revert l2 H2.
  induction H1 as [|x r Hr IH Hx]; intros l2 H2 Hp.
  - now apply Permutation_nil in Hp.
  - destruct H2 as [|y r2 Hr2 Hy].
    + apply Permutation_sym, Permutation_nil in Hp. discriminate.
    + assert (x = y) as ->.
      { assert (In x (y :: r2)) as Hin1
          by (apply (Permutation_in _ Hp); now left).
        assert (In y (x :: r)) as Hin2
          by (apply (Permutation_in _ (Permutation_sym Hp)); now left).
        rewrite Forall_forall in Hx, Hy.
        destruct Hin1 as [E|Hin1]; [now symmetry|].
        destruct Hin2 as [E|Hin2]; [exact E|].
        apply strLe_antisym; [now apply Hx|now apply Hy]. }
      f_equal. apply IH; [assumption|].
      now apply Permutation_cons_inv in Hp.
Qed.

Lemma sort_unique (l l' : list jsString) :
  Permutation l l' -> Sorted le_str l' -> l' = sort l.
Proof.
  intros Hp Hs. apply sorted_perm_unique; [assumption|apply sort_sorted|].
  rewrite <- Hp. apply sort_perm.
Qed.

Lemma sort_idem (l : list jsString) : sort (sort l) = sort l.
Proof. apply sort_of_sorted, sort_sorted. Qed.

Lemma sort_nil_inv (l : list jsString) : sort l = [] -> l = [].
Proof.
  intros H. apply Permutation_nil. rewrite <- H.
  apply Permutation_sym, sort_perm.
Qed.

(** *** Deduplication *)

Lemma mem_In (x : jsString) (l : list jsString) : mem x l = true <-> In x l.
Proof.
  unfold mem. rewrite existsb_exists. split.
  - intros [y [Hy E]]. apply strEq_eq in E. now subst.
  - intros H. exists x. split; [assumption|apply strEq_refl].
Qed.

Lemma dedupeFrom_In (seen l : list jsString) (x : jsString) :
  In x (dedupeFrom seen l) <-> In x l /\ ~ In x seen.
Proof.
  revert seen; induction l as [|y l IH]; intros seen; simpl.
  - tauto.
  - destruct (mem y seen) eqn:E.
    + apply mem_In in E. rewrite IH. split.
      * tauto.
      * intros [[->|H] Hn]; tauto.
    + assert (~ In y seen) as Hy by (rewrite <- mem_In; congruence).
      simpl. rewrite IH. simpl. split.
      * intros [->|[H Hn]]; [tauto|]. split; [tauto|]. intros Hs. apply Hn. now right.
      * intros [[->|H] Hn]; [tauto|].
        destruct (strEq y x) eqn:Eyx.
        -- apply strEq_eq in Eyx. now left.
        -- apply strEq_neq in Eyx. right. split; [assumption|].
           intros [?|?]; contradiction.
Qed.

Lemma dedupeFrom_NoDup (seen l : list jsString) : NoDup (dedupeFrom seen l).
Proof.
  revert seen; induction l as [|y l IH]; intros seen; simpl.
  - constructor.
  - destruct (mem y seen); [apply IH|].
    constructor; [|apply IH].
    rewrite dedupeFrom_In. simpl. tauto.
Qed.

Lemma dedupe_In (l : list jsString) (x : jsString) : In x (dedupe l) <-> In x l.
Proof. unfold dedupe. rewrite dedupeFrom_In. simpl. tauto. Qed.

Lemma dedupe_NoDup (l : list jsString) : NoDup (dedupe l).
Proof. apply dedupeFrom_NoDup. Qed.

Lemma dedupeFrom_fixed (seen l : list jsString) :
  NoDup l -> (forall x, In x l -> ~ In x seen) -> dedupeFrom seen l = l.
Proof.
  intros Hnd; revert seen; induction Hnd as [|y l Hy Hnd IH]; intros seen Hs;
    simpl; [reflexivity|].
  destruct (mem y seen) eqn:E.
  - apply mem_In in E. exfalso. apply (Hs y); simpl; auto.
  - f_equal. apply IH. intros x Hx [<-|Hin]; [contradiction|].
    apply (Hs x); simpl; auto.
Qed.

Lemma dedupe_fixed (l : list jsString) : NoDup l -> dedupe l = l.
Proof. intros H. apply dedupeFrom_fixed; auto. Qed.

Lemma arraysEqualFrom_eq (a b : list jsString) :
  List.length a = List.length b -> (arraysEqualFrom a b = true <-> a = b).
Proof.
  revert b; induction a as [|x a IH]; intros [|y b]; simpl; try discriminate.
  - tauto.
  - intros Hl. injection Hl as Hl.
    destruct (strEq x y) eqn:E; simpl.
    + apply strEq_eq in E. subst. rewrite (IH _ Hl). split; congruence.
    + apply strEq_neq in E. split; [discriminate|congruence].
Qed.

Lemma arraysEqual_eq (a b : list jsString) : arraysEqual a b = true <-> a = b.
Proof.
  unfold arraysEqual.
  destruct (Nat.eqb_spec (List.length a) (List.length b)) as [Hl|Hl]; simpl.
  - now apply arraysEqualFrom_eq.
  - split; [discriminate|]. intros ->. contradiction.
Qed.

End StringFacts.

(** ** The metadata block parser *)

Section Parser.

Lemma lazyUntilClose_unfold (s : jsString) :
  lazyUntilClose s =
  match stripPrefix closeDelim s with
  | Some body => Some ([], body)
  | None =>
      match s with
      | [] => None
      | c :: r =>
          match lazyUntilClose r with
          | Some (fm, body) => Some (c :: fm, body)
          | None => None
          end
      end
  end.
Proof. destruct s; reflexivity. Qed.

Lemma lazyUntilClose_Some (s fm body : jsString) :
  lazyUntilClose s = Some (fm, body) ->
  s = fm ++ closeDelim ++ body /\
  forall fm' body', s = fm' ++ closeDelim ++ body' ->
                    (List.length fm <= List.length fm')%nat.
Proof.
  revert fm body; induction s as [|c r IH]; intros fm body;
    rewrite lazyUntilClose_unfold.
  - discriminate.
  - destruct (stripPrefix closeDelim (c :: r)) as [b|] eqn:E.
    + intros H. injection H as <- <-. apply stripPrefix_Some in E.
      split; [exact E|]. intros; simpl; lia.
    + destruct (lazyUntilClose r) as [[fm0 b0]|] eqn:Er; [|discriminate].
      intros H. injection H as <- <-.
      destruct (IH _ _ eq_refl) as [Hr Hmin]. split.
      * simpl. now f_equal.
      * intros [|c' fm'] body' Hs.
        -- pose proof (proj2 (stripPrefix_Some closeDelim (c :: r) body') Hs).
           congruence.
        -- injection Hs as _ Hs. simpl.
           apply le_n_S. eapply Hmin. exact Hs.
Qed.

Lemma lazyUntilClose_None (s : jsString) :
  lazyUntilClose s = None ->
  forall fm body, s <> fm ++ closeDelim ++ body.
Proof.
  induction s as [|c r IH]; rewrite lazyUntilClose_unfold.
  - intros _ [|x fm] body H; discriminate.
  - destruct (stripPrefix closeDelim (c :: r)) as [b|] eqn:E; [discriminate|].
    destruct (lazyUntilClose r) as [[fm0 b0]|] eqn:Er; [discriminate|].
    intros _ [|x fm] body H.
    + pose proof (proj2 (stripPrefix_Some closeDelim (c :: r) body) H).
      congruence.
    + injection H as _ H. exact (IH eq_refl _ _ H).
Qed.

Lemma parseFrontmatter_block (content fm body : jsString) :
  parseFrontmatter content = mkParsed fm body true ->
  content = openDelim ++ fm ++ closeDelim ++ body.
Proof.
  unfold parseFrontmatter.
  destruct (stripPrefix openDelim content) as [rest|] eqn:E; [|discriminate].
  destruct (lazyUntilClose rest) as [[fm0 b0]|] eqn:Er; [|discriminate].
  intros H. injection H as <- <-.
  apply stripPrefix_Some in E. apply lazyUntilClose_Some in Er as [-> _].
  exact E.
Qed.

Lemma parseFrontmatter_shortest (content fm body : jsString) :
  parseFrontmatter content = mkParsed fm body true ->
  forall fm' body', content = openDelim ++ fm' ++ closeDelim ++ body' ->
                    (List.length fm <= List.length fm')%nat.
Proof.
  unfold parseFrontmatter.
  destruct (stripPrefix openDelim content) as [rest|] eqn:E; [|discriminate].
  destruct (lazyUntilClose rest) as [[fm0 b0]|] eqn:Er; [|discriminate].
  intros H fm' body' Hc. apply stripPrefix_Some in E.
  assert (fm0 = fm) as <- by congruence.
  apply lazyUntilClose_Some in Er as [_ Hmin]. apply (Hmin fm' body').
  rewrite E in Hc. now apply app_inv_head in Hc.
Qed.

Lemma parseFrontmatter_cases (content : jsString) :
  (hasFrontmatter (parseFrontmatter content) = true /\
   content = openDelim ++ frontmatterText (parseFrontmatter content)
             ++ closeDelim ++ bodyText (parseFrontmatter content)) \/
  parseFrontmatter content = mkParsed [] content false.
Proof.
  destruct (parseFrontmatter content) as [fm body [|]] eqn:E.
  - left. split; [reflexivity|]. now apply parseFrontmatter_block.
  - right. revert E. unfold parseFrontmatter.
    destruct (stripPrefix openDelim content) as [rest|]; [|congruence].
    destruct (lazyUntilClose rest) as [[fm0 b0]|]; congruence.
Qed.

End Parser.

(** C5 (as amended).  [parseFrontmatter] reports a block exactly when the
    document is [---], a line break, some metadata text (possibly empty), a
    line break, [---], a line break, and a rest.  The metadata text returned
    is the shortest one that admits such a reading and the rest is the body.
    When the document has no such reading the result is: no block, an empty
    metadata text, and the whole document as body.  Two adjacent delimiter
    lines do not make a block; a delimiter line, an empty line and a
    delimiter line make a block with empty metadata text. *)
Theorem parseFrontmatter_spec (content : jsString) :
  let p := parseFrontmatter content in
  (hasFrontmatter p = true <->
   exists fm body, content = openDelim ++ fm ++ closeDelim ++ body) /\
  (hasFrontmatter p = true ->
   content = openDelim ++ frontmatterText p ++ closeDelim ++ bodyText p /\
   forall fm body, content = openDelim ++ fm ++ closeDelim ++ body ->
                   (List.length (frontmatterText p) <= List.length fm)%nat) /\
  (hasFrontmatter p = false -> bodyText p = content /\ frontmatterText p = []) /\
  parseFrontmatter (text ["---"; "---"; "body"])
    = mkParsed [] (text ["---"; "---"; "body"]) false /\
  parseFrontmatter (text ["---"; ""; "---"; "body"])
    = mkParsed [] (js "body") true.
Proof.
  intros p. subst p.
  split; [|split; [|split; [|split; reflexivity]]];
    unfold parseFrontmatter;
    destruct (stripPrefix openDelim content) as [rest|] eqn:E;
    try (apply stripPrefix_Some in E; subst content;
         destruct (lazyUntilClose rest) as [[fm0 b0]|] eqn:Er;
         [apply lazyUntilClose_Some in Er as [Hr Hmin]|]);
    cbn [frontmatterText bodyText hasFrontmatter].
  - split; [intros _|reflexivity]. exists fm0, b0. now rewrite <- Hr.
  - split; [discriminate|]. intros [fm [body Hc]]. exfalso.
    apply app_inv_head in Hc. exact (lazyUntilClose_None _ Er _ _ Hc).
  - split; [discriminate|]. intros [fm [body Hc]].
    apply stripPrefix_Some in Hc. congruence.
  - intros _. split; [now rewrite <- Hr|].
    intros fm body Hc. apply (Hmin fm body). now apply app_inv_head in Hc.
  - discriminate.
  - discriminate.
  - discriminate.
  - auto.
  - auto.
Qed.

(** Instance of [parseFrontmatter_spec]: a title and a tag list. *)
Lemma parseFrontmatter_spec_witness :
  parseFrontmatter (text ["---"; "title: x"; "tags:"; "  - a"; "---"; "body"])
  = mkParsed (text ["title: x"; "tags:"; "  - a"]) (js "body") true /\
  text ["---"; "title: x"; "tags:"; "  - a"; "---"; "body"]
  = openDelim ++ text ["title: x"; "tags:"; "  - a"] ++ closeDelim ++ js "body".
Proof.
  split; [reflexivity|].
  apply (proj1 (proj1 (proj2 (parseFrontmatter_spec
    (text ["---"; "title: x"; "tags:"; "  - a"; "---"; "body"]))) eq_refl)).
Defined.

(** C5 as stated fails: a document that starts with two adjacent delimiter
    lines begins with a delimiter line, zero lines and another delimiter line,
    yet no block is reported. *)
Lemma parseFrontmatter_adjacent_delimiters :
  text ["---"; "---"; "body"] = openDelim ++ openDelim ++ js "body" /\
  hasFrontmatter (parseFrontmatter (text ["---"; "---"; "body"])) = false.
Proof. split; reflexivity. Qed.

(** ** The tag extractor *)

Section Extractor.

Lemma tagMatches_cons (c : codeUnit) (r : jsString) :
  tagMatches (c :: r) =
  if (c =? 35) && truthy (takeWhile isTagChar r)
  then takeWhile isTagChar r :: tagMatches r
  else tagMatches r.
Proof.
  simpl. destruct (c =? 35); [|reflexivity].
  destruct (takeWhile isTagChar r); reflexivity.
Qed.

(** Every capture is a non-empty run of [[\w\-]] units. *)
Lemma tagMatches_captures (content : jsString) :
  Forall (fun t => truthy t = true /\ Forall (fun c => isTagChar c = true) t)
         (tagMatches content).
Proof.
  induction content as [|c r IH]; [constructor|].
  rewrite tagMatches_cons.
  destruct ((c =? 35) && truthy (takeWhile isTagChar r)) eqn:E; [|exact IH].
  apply andb_true_iff in E as [_ E].
  constructor; [|exact IH]. split; [exact E|apply takeWhile_Forall].
Qed.

(** The defensive emptiness test of the loop never rejects a capture. *)
Lemma tagMatches_filter (content : jsString) :
  filter (fun tag => truthy tag && (0 <? N.of_nat (List.length tag)))
         (tagMatches content) = tagMatches content.
Proof.
  pose proof (tagMatches_captures content) as H.
  induction H as [|t l [Ht _] _ IH]; simpl; [reflexivity|].
  destruct t; [discriminate|]. simpl. now rewrite IH.
Qed.

Lemma extractInlineTags_eq (lowercaseTags : bool) (content : jsString) :
  extractInlineTags lowercaseTags content =
  dedupe (map (fun tag => if lowercaseTags then toLowerCase tag else tag)
              (tagMatches content)).
Proof. unfold extractInlineTags. now rewrite tagMatches_filter. Qed.

Lemma extractInlineTags_NoDup (lowercaseTags : bool) (content : jsString) :
  NoDup (extractInlineTags lowercaseTags content).
Proof. apply dedupe_NoDup. Qed.

(** The scan resumes behind the capture: what follows a match is found
    from the first unit after the capture. *)
Lemma tagMatches_skip (w rest : jsString) :
  Forall (fun c => isTagChar c = true) w ->
  tagMatches (w ++ rest) = tagMatches rest.
Proof.
  induction 1 as [|c w Hc _ IH]; [reflexivity|].
  simpl app. rewrite tagMatches_cons.
  destruct (N.eqb_spec c 35) as [->|_]; [discriminate Hc|]. exact IH.
Qed.

Lemma tagMatches_resume (content : jsString) :
  tagMatches (35 :: content) =
  match takeWhile isTagChar content with
  | [] => tagMatches content
  | capture => capture :: tagMatches (dropWhile isTagChar content)
  end.
Proof.
  rewrite tagMatches_cons. simpl.
  destruct (takeWhile isTagChar content) as [|c w] eqn:E; [reflexivity|].
  simpl. f_equal.
  rewrite <- (takeWhile_dropWhile isTagChar content) at 1.
  apply tagMatches_skip. apply takeWhile_Forall.
Qed.

End Extractor.

(** C9.  On the text [#Tag #tag #TAG] the extractor returns the single tag
    [tag] when lowercasing is enabled and the three tags [Tag], [tag], [TAG]
    when it is disabled.  With lowercasing enabled the result is the
    deduplication of the case-folded candidates: it has no repeated entry and
    its entries are exactly the case-folded forms of the candidates. *)
Theorem extractInlineTags_dedup_normalise :
  extractInlineTags true (js "#Tag #tag #TAG") = [js "tag"] /\
  extractInlineTags false (js "#Tag #tag #TAG") = [js "Tag"; js "tag"; js "TAG"] /\
  (forall content,
     extractInlineTags true content
     = dedupe (map toLowerCase (tagMatches content))) /\
  (forall content, NoDup (extractInlineTags true content)) /\
  (forall content t,
     In t (extractInlineTags true content) <->
     exists candidate, In candidate (tagMatches content)
                       /\ t = toLowerCase candidate).
Proof.
  split; [reflexivity|]. split; [reflexivity|]. split; [|split].
  - intros content. apply extractInlineTags_eq.
  - intros content. apply extractInlineTags_NoDup.
  - intros content t. rewrite extractInlineTags_eq, dedupe_In, in_map_iff.
    split; intros [c [H1 H2]]; exists c; auto.
Qed.

(** ** The sync orchestrator *)

Section Sync.

(** The three ways [syncTagsToFrontmatter] ends. *)
Lemma sync_cases (lowercaseTags : bool) (content : jsString) :
  let p := parseFrontmatter content in
  let inlineTags := extractInlineTags lowercaseTags content in
  let existingTags := getExistingTags (frontmatterText p) in
  (sort existingTags = sort inlineTags /\
   syncTagsToFrontmatter lowercaseTags content = None) \/
  (sort existingTags <> sort inlineTags /\ inlineTags = [] /\
   hasFrontmatter p = true /\
   syncTagsToFrontmatter lowercaseTags content =
   Some (if truthy (trim (removeTags (frontmatterText p)))
         then openDelim ++ removeTags (frontmatterText p) ++ openDelim
              ++ bodyText p
         else bodyText p)) \/
  (sort existingTags <> sort inlineTags /\ inlineTags <> [] /\
   syncTagsToFrontmatter lowercaseTags content =
   Some (openDelim
         ++ buildFrontmatterWithTags (frontmatterText p) (sort inlineTags)
                                     (hasFrontmatter p)
         ++ openDelim ++ bodyText p)).
Proof.
  intros p inlineTags existingTags. unfold syncTagsToFrontmatter.
  fold p. fold inlineTags. fold existingTags.
  destruct (arraysEqual (sort existingTags) (sort inlineTags)) eqn:E.
  - left. apply arraysEqual_eq in E. auto.
  - assert (sort existingTags <> sort inlineTags) as Hne.
    { intros H. apply arraysEqual_eq in H. congruence. }
    right. destruct inlineTags as [|t ts] eqn:Ei.
    + left. cbn [List.length Nat.eqb].
      destruct (parseFrontmatter_cases content) as [[Hb _]|Hn].
      * fold p in Hb. rewrite Hb.
        repeat split; auto.
        destruct (truthy (trim (removeTags (frontmatterText p)))); reflexivity.
      * exfalso. apply Hne. subst existingTags p. now rewrite Hn.
    + right. cbn [List.length Nat.eqb].
      split; [assumption|]. split; [discriminate|].
      destruct (parseFrontmatter_cases content) as [[Hb _]|Hn].
      * fold p in Hb. now rewrite Hb.
      * subst p. now rewrite Hn.
Qed.

(** Nothing is written exactly when the two sorted sequences agree. *)
Lemma sync_None_iff (lowercaseTags : bool) (content : jsString) :
  syncTagsToFrontmatter lowercaseTags content = None <->
  sort (getExistingTags (frontmatterText (parseFrontmatter content)))
  = sort (extractInlineTags lowercaseTags content).
Proof.
  destruct (sync_cases lowercaseTags content)
    as [[He Hs]|[(Hne & _ & _ & Hs)|(Hne & _ & Hs)]];
    rewrite Hs; split; intros H; try discriminate; auto; contradiction.
Qed.

End Sync.

(** C6.  Whenever [syncTagsToFrontmatter] writes a new content, the body
    found by the parser (the whole document when there is no block) is the
    final segment of what is written, unit for unit. *)
Theorem sync_preserves_body (lowercaseTags : bool) (content out : jsString) :
  syncTagsToFrontmatter lowercaseTags content = Some out ->
  (exists prefix, out = prefix ++ bodyText (parseFrontmatter content)) /\
  (hasFrontmatter (parseFrontmatter content) = false ->
   bodyText (parseFrontmatter content) = content).
Proof.
  intros H. split;
    [|intros Hb; destruct (parseFrontmatter_cases content) as [[Hb' _]|Hn];
      [congruence|now rewrite Hn]].
  destruct (sync_cases lowercaseTags content) as [[_ Hs]|[(_ & _ & _ & Hs)|(_ & _ & Hs)]];
    rewrite Hs in H; [discriminate| |]; injection H as <-.
  - destruct (truthy _).
    + exists (openDelim
              ++ removeTags (frontmatterText (parseFrontmatter content))
              ++ openDelim).
      now rewrite <- !app_assoc.
    + exists []. reflexivity.
  - exists (openDelim
            ++ buildFrontmatterWithTags
                 (frontmatterText (parseFrontmatter content))
                 (sort (extractInlineTags lowercaseTags content))
                 (hasFrontmatter (parseFrontmatter content))
            ++ openDelim).
    now rewrite <- !app_assoc.
Qed.

(** Instance of [sync_preserves_body]: the scenario of the specification. *)
Lemma sync_preserves_body_witness :
  syncTagsToFrontmatter true (js "#Luke, #together, and #galaxy.")
  = Some (text ["---"; "tags:"; "  - galaxy"; "  - luke"; "  - together";
                "---"; "#Luke, #together, and #galaxy."]) /\
  (exists prefix,
     text ["---"; "tags:"; "  - galaxy"; "  - luke"; "  - together";
           "---"; "#Luke, #together, and #galaxy."]
     = prefix
       ++ bodyText (parseFrontmatter (js "#Luke, #together, and #galaxy."))) /\
  (hasFrontmatter (parseFrontmatter (js "#Luke, #together, and #galaxy."))
   = false ->
   bodyText (parseFrontmatter (js "#Luke, #together, and #galaxy."))
   = js "#Luke, #together, and #galaxy.").
Proof.
  split; [reflexivity|].
  apply (sync_preserves_body true (js "#Luke, #together, and #galaxy.")).
  reflexivity.
Defined.

(** The punctuation boundary of the specification: the text [#galaxy.] gives
    the tag [galaxy], the text [#co-pilot] gives [co-pilot]. *)
Example extractInlineTags_boundaries :
  extractInlineTags true (js "#galaxy.") = [js "galaxy"] /\
  extractInlineTags true (js "#co-pilot") = [js "co-pilot"] /\
  extractInlineTags true (js "##a#b, # c #-") = [js "a"; js "b"; js "-"].
Proof. repeat split; reflexivity. Qed.

(** C2 (as amended).  [syncTagsToFrontmatter] returns without writing exactly
    when the sorted sequence of the tags read from the metadata text, taken
    as they are read (no case folding, repeated entries kept), equals the
    sorted, deduplicated sequence of the extracted inline tags. *)
Theorem sync_no_change_iff (lowercaseTags : bool) (content : jsString) :
  syncTagsToFrontmatter lowercaseTags content = None <->
  sort (getExistingTags (frontmatterText (parseFrontmatter content)))
  = sort (dedupe (extractInlineTags lowercaseTags content)).
Proof.
  rewrite (dedupe_fixed _ (extractInlineTags_NoDup lowercaseTags content)).
  apply sync_None_iff.
Qed.

(** C2 as stated fails: a repeated entry in the recorded list makes the
    comparison fail although the deduplicated sequences agree. *)
Lemma sync_duplicate_recorded_tag :
  let content := text ["---"; "tags:"; "  - a"; "  - a"; "---"; "#a"] in
  ~ (syncTagsToFrontmatter true content = None <->
     sort (dedupe (getExistingTags (frontmatterText (parseFrontmatter content))))
     = sort (dedupe (extractInlineTags true content))).
Proof.
  intros content [_ H].
  assert (syncTagsToFrontmatter true content
          = Some (text ["---"; "tags:"; "  - a"; "---"; "#a"])) as Hs
    by reflexivity.
  rewrite H in Hs; [discriminate|reflexivity].
Qed.

(** ** Lines of the metadata text *)

Section Lines.

Lemma dropWhile_app_keep {A} (p : A -> bool) (l : list A) (c : A) :
  p c = false -> dropWhile p (l ++ [c]) = dropWhile p l ++ [c].
Proof.
  intros Hc. induction l as [|x l IH]; simpl.
  - now rewrite Hc.
  - destruct (p x); [exact IH|reflexivity].
Qed.

Lemma dropWhile_head {A} (p : A -> bool) (l : list A) :
  match dropWhile p l with [] => True | c :: _ => p c = false end.
Proof.
  induction l as [|x l IH]; simpl; [exact I|].
  destruct (p x) eqn:E; [exact IH|exact E].
Qed.

Lemma trimEnd_cons (c : codeUnit) (x : jsString) :
  isWhiteSpace c = false -> trimEnd (c :: x) = c :: trimEnd x.
Proof.
  intros Hc. unfold trimEnd. simpl rev.
  rewrite (dropWhile_app_keep _ _ _ Hc), rev_app_distr. reflexivity.
Qed.

Lemma trimEnd_solid (x : jsString) :
  Forall (fun c => isWhiteSpace c = false) x -> trimEnd x = x.
Proof.
  induction 1 as [|c x Hc _ IH]; [reflexivity|].
  rewrite (trimEnd_cons _ _ Hc). now rewrite IH.
Qed.

Lemma trimEnd_app_solid (x t : jsString) :
  t <> [] -> Forall (fun c => isWhiteSpace c = false) t ->
  trimEnd (x ++ t) = x ++ t.
Proof.
  intros Hne Ht. unfold trimEnd. rewrite rev_app_distr.
  destruct (rev t) as [|c rt] eqn:E.
  - apply (f_equal (@rev _)) in E. rewrite rev_involutive in E. contradiction.
  - assert (isWhiteSpace c = false) as Hc.
    { rewrite Forall_forall in Ht. apply Ht. apply in_rev. rewrite E. now left. }
    simpl. rewrite Hc. change (c :: rt ++ rev x) with ((c :: rt) ++ rev x).
    rewrite <- E, <- rev_app_distr. apply rev_involutive.
Qed.

(** A trimmed string is empty or starts with a unit that is not white space:
    [trimmed.startsWith(' ')] never holds. *)
Lemma trim_head (s : jsString) :
  match trim s with [] => True | c :: _ => isWhiteSpace c = false end.
Proof.
  unfold trim, trimStart.
  pose proof (dropWhile_head isWhiteSpace s) as H.
  destruct (dropWhile isWhiteSpace s) as [|c x]; [exact I|].
  now rewrite (trimEnd_cons _ _ H).
Qed.

Lemma trim_not_space (s : jsString) : startsWith (js " ") (trim s) = false.
Proof.
  pose proof (trim_head s) as H.
  destruct (startsWith (js " ") (trim s)) eqn:E; [|reflexivity].
  apply startsWith_true in E as [r Hr]. rewrite Hr in H. discriminate H.
Qed.

Lemma trim_solid (pad t : jsString) :
  Forall (fun c => isWhiteSpace c = true) pad ->
  Forall (fun c => isWhiteSpace c = false) t ->
  trim (pad ++ t) = t.
Proof.
  intros Hp Ht. unfold trim, trimStart.
  assert (dropWhile isWhiteSpace (pad ++ t) = t) as ->.
  { induction Hp as [|c pad Hc _ IH]; simpl.
    - destruct Ht as [|c t Hc _]; simpl; [reflexivity|]. now rewrite Hc.
    - now rewrite Hc. }
  now apply trimEnd_solid.
Qed.

(** *** [split] and [join] *)

Lemma split_nonempty (sep : codeUnit) (s : jsString) : split sep s <> [].
Proof.
  destruct s as [|c r]; simpl; [discriminate|].
  destruct (c =? sep); [discriminate|].
  destruct (split sep r); discriminate.
Qed.

Lemma join_cons (sep l : jsString) (ls : list jsString) :
  ls <> [] -> join sep (l :: ls) = l ++ sep ++ join sep ls.
Proof. destruct ls; [contradiction|reflexivity]. Qed.

Lemma join_split (sep : codeUnit) (s : jsString) : join [sep] (split sep s) = s.
Proof.
  induction s as [|c r IH]; [reflexivity|]. simpl split.
  destruct (N.eqb_spec c sep) as [->|Hne].
  - rewrite join_cons by apply split_nonempty. simpl. now rewrite IH.
  - pose proof (split_nonempty sep r) as Hn.
    destruct (split sep r) as [|p ps]; [contradiction|].
    rewrite <- IH. destruct ps; reflexivity.
Qed.

Lemma split_free (sep : codeUnit) (s : jsString) :
  Forall (fun l => ~ In sep l) (split sep s).
Proof.
  induction s as [|c r IH]; simpl.
  - constructor; [intros []|constructor].
  - destruct (N.eqb_spec c sep) as [->|Hne].
    + constructor; [intros []|exact IH].
    + destruct (split sep r) as [|p ps]; [repeat constructor; intros [?|[]]; congruence|].
      inversion IH; subst. constructor; [|assumption].
      intros [?|?]; [congruence|contradiction].
Qed.

Lemma split_line (sep : codeUnit) (l : jsString) :
  ~ In sep l -> split sep l = [l].
Proof.
  induction l as [|c l IH]; intros H; [reflexivity|]. simpl.
  destruct (N.eqb_spec c sep) as [->|Hne]; [exfalso; apply H; now left|].
  rewrite IH; [reflexivity|]. intros Hin. apply H. now right.
Qed.

Lemma split_app_sep (sep : codeUnit) (l r : jsString) :
  ~ In sep l -> split sep (l ++ sep :: r) = l :: split sep r.
Proof.
  induction l as [|c l IH]; intros H; simpl.
  - now rewrite N.eqb_refl.
  - destruct (N.eqb_spec c sep) as [->|Hne]; [exfalso; apply H; now left|].
    rewrite IH; [reflexivity|]. intros Hin. apply H. now right.
Qed.

Lemma split_join (sep : codeUnit) (ls : list jsString) :
  ls <> [] -> Forall (fun l => ~ In sep l) ls ->
  split sep (join [sep] ls) = ls.
Proof.
  intros Hne Hf. induction Hf as [|l ls Hl Hf IH]; [contradiction|].
  destruct ls as [|l2 ls].
  - simpl. now apply split_line.
  - rewrite join_cons by discriminate. simpl app.
    rewrite split_app_sep by assumption. f_equal. apply IH. discriminate.
Qed.

(** A line of the text that is a member of the pieces appears in the joined
    text as a complete line, between two line breaks once the text is framed
    by line breaks. *)
Lemma join_member_line (l : jsString) (ls : list jsString) :
  In l ls ->
  exists a b, [LF] ++ join [LF] ls ++ [LF] = a ++ [LF] ++ l ++ [LF] ++ b.
Proof.
  induction ls as [|l1 ls IH]; [intros []|].
  intros [<-|H].
  - destruct ls as [|l2 ls].
    + exists [], []. reflexivity.
    + rewrite join_cons by discriminate.
      exists [], (join [LF] (l2 :: ls) ++ [LF]).
      now rewrite <- !app_assoc.
  - destruct ls as [|l2 ls]; [destruct H|].
    destruct (IH H) as (a & b & E).
    rewrite join_cons by discriminate.
    exists ([LF] ++ l1 ++ a), b.
    rewrite <- !app_assoc. do 2 f_equal. exact E.
Qed.

End Lines.

(** ** The line scanner shared by the reader, the remover and the writer *)

Section Scanner.

Lemma isTagsKey_startsWith (t : jsString) :
  isTagsKey t = startsWith (js "tags:") t.
Proof.
  unfold isTagsKey. destruct (strEq t (js "tags:")) eqn:E; [|reflexivity].
  apply strEq_eq in E. subst. reflexivity.
Qed.

Lemma isKey_not_item (l : jsString) : isKey l = true -> isItem l = false.
Proof.
  unfold isKey, isItem. rewrite isTagsKey_startsWith. intros H.
  apply startsWith_true in H as [r ->]. reflexivity.
Qed.

Lemma isKey_not_blank (l : jsString) : isKey l = true -> isBlank l = false.
Proof.
  unfold isKey, isBlank. rewrite isTagsKey_startsWith. intros H.
  apply startsWith_true in H as [r ->]. reflexivity.
Qed.

Lemma isItem_not_blank (l : jsString) : isItem l = true -> isBlank l = false.
Proof.
  unfold isItem, isBlank. intros H.
  apply startsWith_true in H as [r ->]. reflexivity.
Qed.

(** One turn of the [removeTags] loop. *)
Lemma removeLines_step (l : jsString) (r : list jsString) (st : bool) :
  removeLines (l :: r) st =
  if isKey l then removeLines r true
  else if st && (isItem l || isBlank l) then removeLines r true
  else l :: removeLines r false.
Proof.
  cbn [removeLines]. fold (isKey l).
  destruct (isKey l); [reflexivity|].
  rewrite trim_not_space. unfold isItem, isBlank.
  destruct st, (startsWith (js "-") (trim l)), (truthy (trim l)); reflexivity.
Qed.

(** One turn of the [buildFrontmatterWithTags] loop. *)
Lemma rebuildLines_step (l : jsString) (r tags : list jsString) (st : bool) :
  rebuildLines (l :: r) tags st =
  if isKey l
  then (js "tags:" :: map tagLine tags ++ fst (rebuildLines r tags true), true)
  else if st && (isItem l || isBlank l) then rebuildLines r tags true
  else (l :: fst (rebuildLines r tags false), snd (rebuildLines r tags false)).
Proof.
  cbn [rebuildLines]. fold (isKey l).
  destruct (isKey l).
  - destruct (rebuildLines r tags true); reflexivity.
  - rewrite trim_not_space. unfold isItem, isBlank.
    destruct st, (startsWith (js "-") (trim l)), (truthy (trim l));
      cbn [andb orb negb];
      try destruct (rebuildLines r tags true);
      try destruct (rebuildLines r tags false); reflexivity.
Qed.

(** One turn of the [getExistingTags] loop. *)
Lemma readLines_step (l : jsString) (r : list jsString) (st : bool)
    (tags : list jsString) :
  readLines (l :: r) st tags =
  if isKey l then
    match inlineArrayMatch (trim l) with
    | Some cap => inlineArrayTags cap
    | None => readLines r true tags
    end
  else if negb st then readLines r false tags
  else if isItem l then
    readLines r true
      (if truthy (trim (substring1 (trim l)))
       then tags ++ [trim (substring1 (trim l))] else tags)
  else if isBlank l then readLines r true tags
  else tags.
Proof.
  cbn [readLines]. fold (isKey l).
  destruct (isKey l); [reflexivity|].
  rewrite trim_not_space. unfold isItem, isBlank.
  destruct st, (startsWith (js "-") (trim l)), (truthy (trim l)); reflexivity.
Qed.

Lemma inTagSection_step (before : list jsString) (l : jsString) :
  inTagSection before l =
  if isKey l then true
  else if isItem l || isBlank l
       then existsb isKey (takeWhile sectionLine before)
       else false.
Proof.
  unfold inTagSection. cbn [takeWhile]. unfold sectionLine at 1.
  destruct (isKey l) eqn:Ek; cbn [orb].
  - cbn [existsb]. now rewrite Ek.
  - destruct (isItem l || isBlank l); [|reflexivity].
    cbn [existsb]. now rewrite Ek.
Qed.

(** The state of the remover after a line is the membership of that line in
    a tag section; the lines it emits are the ones outside. *)
Lemma removeLines_keptLines (before lines : list jsString) :
  removeLines lines (existsb isKey (takeWhile sectionLine before))
  = keptLines before lines.
Proof.
  revert before; induction lines as [|l r IH]; intros before; [reflexivity|].
  rewrite removeLines_step. cbn [keptLines].
  rewrite <- (IH (l :: before)).
  change (existsb isKey (takeWhile sectionLine (l :: before)))
    with (inTagSection before l).
  rewrite inTagSection_step.
  destruct (isKey l); [reflexivity|].
  destruct (isItem l || isBlank l); [|now rewrite andb_false_r].
  destruct (existsb isKey (takeWhile sectionLine before)); reflexivity.
Qed.

End Scanner.

Lemma removeLines_no_key (lines : list jsString) :
  existsb isKey lines = false -> removeLines lines false = lines.
Proof.
  induction lines as [|l r IH]; [reflexivity|]. cbn [existsb].
  intros H. apply orb_false_iff in H as [Hl Hr].
  rewrite removeLines_step, Hl. cbn [andb]. now rewrite IH.
Qed.

Lemma removeLines_items (sec rest : list jsString) :
  forallb (fun l => isItem l || isBlank l) sec = true ->
  removeLines (sec ++ rest) true = removeLines rest true.
Proof.
  induction sec as [|l r IH]; [reflexivity|]. cbn [forallb].
  intros H. apply andb_true_iff in H as [Hl Hr].
  rewrite <- app_comm_cons, removeLines_step, Hl. cbn [andb].
  destruct (isKey l); auto.
Qed.

(** A text with one tag section: the lines above it, the tag-key line, its
    list-item and blank lines, and from the line that ends it on. *)
Lemma removeLines_one_section (pre : list jsString) (key : jsString)
    (sec rest : list jsString) :
  existsb isKey pre = false -> isKey key = true ->
  forallb (fun l => isItem l || isBlank l) sec = true ->
  match rest with [] => True | e :: _ => sectionLine e = false end ->
  existsb isKey rest = false ->
  removeLines (pre ++ key :: sec ++ rest) false = pre ++ rest.
Proof.
  intros Hpre Hkey Hsec Hend Hrest.
  induction pre as [|l pre IH].
  - cbn [app]. rewrite removeLines_step, Hkey, (removeLines_items _ _ Hsec).
    destruct rest as [|e r]; [reflexivity|].
    cbn [existsb] in Hrest. apply orb_false_iff in Hrest as [He Hr].
    unfold sectionLine in Hend. rewrite He in Hend. cbn [orb] in Hend.
    rewrite removeLines_step, He, Hend. cbn [andb].
    now rewrite (removeLines_no_key _ Hr).
  - cbn [existsb] in Hpre. apply orb_false_iff in Hpre as [Hl Hp].
    rewrite <- app_comm_cons, removeLines_step, Hl. cbn [andb app].
    now rewrite (IH Hp).
Qed.

(** C8 (as amended).  On a metadata text in which every line that ends a tag
    section starts at the left margin, [removeTags] outputs exactly the lines
    that lie outside the tag sections, unchanged and in their original
    order.  A tag section is a tag-key line together with the list-item
    lines and the blank lines that follow it, up to the first non-blank line
    that is neither a list item nor a tag-key line; that line is kept.  In
    particular, when the text has one tag-key line, what remains is the
    lines above it followed by the lines from the end of its section on. *)
Theorem removeTags_keeps_lines_outside_sections (frontmatterText : jsString) :
  sectionsEndAtMargin [] (split LF frontmatterText) = true ->
  removeTags frontmatterText
  = join [LF] (keptLines [] (split LF frontmatterText)) /\
  forall pre key sec rest,
    split LF frontmatterText = pre ++ key :: sec ++ rest ->
    existsb isKey pre = false -> isKey key = true ->
    forallb (fun l => isItem l || isBlank l) sec = true ->
    match rest with [] => True | e :: _ => sectionLine e = false end ->
    existsb isKey rest = false ->
    removeTags frontmatterText = join [LF] (pre ++ rest).
Proof.
  intros _. unfold removeTags. split.
  - f_equal. exact (removeLines_keptLines [] (split LF frontmatterText)).
  - intros pre key sec rest -> Hpre Hkey Hsec Hend Hrest.
    now rewrite removeLines_one_section.
Qed.

(** Instance of [removeTags_keeps_lines_outside_sections]: a title above and
    an author below the tag list, with a blank line closing the list. *)
Lemma removeTags_keeps_lines_outside_sections_witness :
  let frontmatterText :=
    text ["title: x"; "tags:"; "  - a"; ""; "author: y"] in
  sectionsEndAtMargin [] (split LF frontmatterText) = true /\
  keptLines [] (split LF frontmatterText) = [js "title: x"; js "author: y"] /\
  removeTags frontmatterText = text ["title: x"; "author: y"].
Proof.
  split; [reflexivity|]. split; [reflexivity|].
  apply (proj2 (removeTags_keeps_lines_outside_sections
                  (text ["title: x"; "tags:"; "  - a"; ""; "author: y"])
                  eq_refl)
               [js "title: x"] (js "tags:") [js "  - a"; []] [js "author: y"]);
    reflexivity.
Defined.

(** C8 as stated fails: the blank line between the last list item and the
    next field does not pass through. *)
Lemma removeTags_drops_blank_line :
  let frontmatterText := text ["title: x"; "tags:"; "  - a"; ""; "author: y"] in
  split LF frontmatterText
  = [js "title: x"; js "tags:"; js "  - a"; []; js "author: y"] /\
  split LF (removeTags frontmatterText) = [js "title: x"; js "author: y"] /\
  ~ In [] (split LF (removeTags frontmatterText)).
Proof.
  split; [reflexivity|]. split; [reflexivity|].
  intros [H|[H|[]]]; discriminate H.
Qed.


(** C7: the code at the failing input.  The second line is not empty, is
    indented and is not a list item; the reader stops there and the list
    item below it is not read. *)
Theorem getExistingTags_stops_at_indented_line :
  indented (js "  note") = true /\ isItem (js "  note") = false /\
  getExistingTags (text ["tags:"; "  note"; "  - a"]) = [] /\
  getExistingTags (text ["tags:"; "  - a"]) = [js "a"].
Proof. repeat split; reflexivity. Qed.

(** C4: the code at the failing input.  Removing the tag list below a title
    field writes the remaining metadata text without its final line break:
    the title line is fused with the closing delimiter and the result has no
    metadata block. *)
Theorem sync_removal_fuses_last_field :
  let content := text ["---"; "title: x"; "tags:"; "  - a"; "---"; "body"] in
  syncTagsToFrontmatter true content
  = Some (text ["---"; "title: x---"; "body"]) /\
  ~ In (js "title: x") (split LF (text ["---"; "title: x---"; "body"])) /\
  hasFrontmatter (parseFrontmatter (text ["---"; "title: x---"; "body"])) = false.
Proof.
  split; [reflexivity|]. split; [|reflexivity].
  intros [H|[H|[H|[]]]]; discriminate H.
Qed.

(** ** Deletion of a block that holds only a tag list *)

Section Deletion.

Lemma removeLines_section (items : list jsString) :
  forallb (fun l => isItem l || isBlank l) items = true ->
  removeLines items true = [].
Proof.
  induction items as [|l r IH]; [reflexivity|]. cbn [forallb].
  intros H. apply andb_true_iff in H as [Hl Hr].
  rewrite removeLines_step, Hl. cbn [andb].
  destruct (isKey l); auto.
Qed.

Lemma removeTags_onlyTagList (fm : jsString) :
  onlyTagList fm = true -> removeTags fm = [].
Proof.
  unfold onlyTagList, removeTags.
  destruct (split LF fm) as [|k items]; [discriminate|].
  intros H. apply andb_true_iff in H as [Hk Hi].
  rewrite removeLines_step, Hk. now rewrite removeLines_section.
Qed.

End Deletion.

(** C3 (as amended).  When the metadata block holds only a tag list that
    records at least one tag, and the document yields no inline tag,
    [syncTagsToFrontmatter] writes the body alone: the document was the
    opening delimiter line, the metadata text, the closing delimiter line
    and the body, and nothing but the body remains. *)
Theorem sync_deletes_tag_only_block (lowercaseTags : bool) (content : jsString) :
  let p := parseFrontmatter content in
  hasFrontmatter p = true ->
  onlyTagList (frontmatterText p) = true ->
  getExistingTags (frontmatterText p) <> [] ->
  extractInlineTags lowercaseTags content = [] ->
  content = openDelim ++ frontmatterText p ++ closeDelim ++ bodyText p /\
  syncTagsToFrontmatter lowercaseTags content = Some (bodyText p).
Proof.
  intros p Hb Ho He Hi. split.
  - destruct (parseFrontmatter_cases content) as [[_ Hc]|Hn]; [exact Hc|].
    subst p. rewrite Hn in Hb. discriminate.
  - destruct (sync_cases lowercaseTags content)
      as [[Heq _]|[(_ & _ & _ & Hs)|(_ & Hne & _)]].
    + fold p in Heq. rewrite Hi in Heq. apply sort_nil_inv in Heq.
      contradiction.
    + fold p in Hs. rewrite Hs, (removeTags_onlyTagList _ Ho). reflexivity.
    + contradiction.
Qed.

(** Instance of [sync_deletes_tag_only_block]: two recorded tags, none left
    in the text. *)
Lemma sync_deletes_tag_only_block_witness :
  let content := text ["---"; "tags:"; "  - a"; "  - b"; "---"; "body"] in
  content = openDelim ++ frontmatterText (parseFrontmatter content)
            ++ closeDelim ++ bodyText (parseFrontmatter content) /\
  syncTagsToFrontmatter true content = Some (js "body").
Proof.
  apply (sync_deletes_tag_only_block true
           (text ["---"; "tags:"; "  - a"; "  - b"; "---"; "body"]));
    [reflexivity|reflexivity|discriminate|reflexivity].
Defined.

(** C3 as stated fails: a block that holds only a tag list, the list being
    empty, stays in place. *)
Lemma sync_keeps_empty_tag_list :
  let content := text ["---"; "tags: []"; "---"; "body"] in
  let p := parseFrontmatter content in
  hasFrontmatter p = true /\
  onlyTagList (frontmatterText p) = true /\
  extractInlineTags true content = [] /\
  syncTagsToFrontmatter true content <> Some (bodyText p).
Proof. repeat split; try reflexivity. discriminate. Qed.

(** ** Tokens inside the metadata block *)

Section Tokens.

Lemma buildFrontmatterWithTags_lines (fm : jsString) (tags : list jsString)
    (h : bool) :
  tags <> [] ->
  buildFrontmatterWithTags fm tags h = join [LF] (builtLines fm tags h) ++ [LF].
Proof.
  intros Hne. unfold buildFrontmatterWithTags, builtLines.
  destruct (negb h || negb (truthy fm)).
  - rewrite join_cons by (destruct tags; [contradiction|discriminate]).
    now rewrite <- !app_assoc.
  - destruct (rebuildLines (split LF fm) tags false) as [nl ins].
    destruct (negb ins); reflexivity.
Qed.

Lemma rebuildLines_inserted (lines tags : list jsString) (st : bool) :
  snd (rebuildLines lines tags st) = true ->
  incl (map tagLine tags) (fst (rebuildLines lines tags st)).
Proof.
  revert st; induction lines as [|l r IH]; intros st; [discriminate|].
  rewrite rebuildLines_step. destruct (isKey l).
  - intros _. cbn [fst]. intros x Hx. right. apply in_or_app. now left.
  - destruct (st && (isItem l || isBlank l)); [apply IH|].
    cbn [fst snd]. intros H x Hx. right. now apply (IH false).
Qed.

Lemma builtLines_tags (fm : jsString) (tags : list jsString) (h : bool) :
  incl (map tagLine tags) (builtLines fm tags h).
Proof.
  unfold builtLines. destruct (negb h || negb (truthy fm)).
  - intros x Hx. now right.
  - pose proof (rebuildLines_inserted (split LF fm) tags false) as H.
    destruct (rebuildLines (split LF fm) tags false) as [nl [|]]; cbn [negb].
    + now apply H.
    + intros x Hx. right. apply in_or_app. now left.
Qed.

Lemma Some_inj {A} (x y : A) : Some x = Some y -> x = y.
Proof. congruence. Qed.

Lemma framed_lines (x rest : jsString) :
  openDelim ++ (x ++ [LF]) ++ rest = js "---" ++ ([LF] ++ x ++ [LF]) ++ rest.
Proof. unfold openDelim. now rewrite <- !app_assoc. Qed.

Lemma tagMatches_suffix (p r : jsString) (t : jsString) :
  In t (tagMatches r) -> In t (tagMatches (p ++ r)).
Proof.
  intros H. induction p as [|c p IH]; [exact H|].
  simpl app. rewrite tagMatches_cons.
  destruct ((c =? 35) && truthy (takeWhile isTagChar (p ++ r)));
    [now right|exact IH].
Qed.

Lemma tagMatches_token (w rest : jsString) :
  w <> [] -> Forall (fun c => isTagChar c = true) w ->
  match rest with [] => True | c :: _ => isTagChar c = false end ->
  tagMatches (35 :: w ++ rest) = w :: tagMatches (w ++ rest).
Proof.
  intros Hne Hw Hr. rewrite tagMatches_cons.
  rewrite (takeWhile_app_stop _ _ _ Hw Hr).
  destruct w; [contradiction|reflexivity].
Qed.

End Tokens.

(** C10.  A token made of [#] and a maximal non-empty run of tag characters
    that occurs in the metadata text of a document's block is extracted as an
    inline tag (case-folded when lowercasing is on), like a token of the
    body.  It takes part in the comparison: when nothing is written, the tag
    is among the recorded tags.  It takes part in the rewrite: whatever is
    written contains the list-item line of that tag as a complete line. *)
Theorem frontmatter_tokens_are_inline_tags
    (lowercaseTags : bool) (content fm body before w after : jsString) :
  parseFrontmatter content = mkParsed fm body true ->
  fm = before ++ 35 :: w ++ after ->
  w <> [] -> Forall (fun c => isTagChar c = true) w ->
  match after with [] => True | c :: _ => isTagChar c = false end ->
  let tag := if lowercaseTags then toLowerCase w else w in
  In tag (extractInlineTags lowercaseTags content) /\
  (syncTagsToFrontmatter lowercaseTags content = None ->
   In tag (getExistingTags fm)) /\
  (forall out, syncTagsToFrontmatter lowercaseTags content = Some out ->
   exists a b, out = a ++ [LF] ++ tagLine tag ++ [LF] ++ b).
Proof.
  intros Hp Hfm Hne Hw Hafter tag.
  assert (In tag (extractInlineTags lowercaseTags content)) as Hin.
  { rewrite extractInlineTags_eq, dedupe_In.
    apply (in_map (fun t => if lowercaseTags then toLowerCase t else t)
                  (tagMatches content) w).
    rewrite (parseFrontmatter_block _ _ _ Hp), Hfm.
    apply tagMatches_suffix. rewrite <- app_assoc.
    apply tagMatches_suffix. rewrite <- app_comm_cons, <- app_assoc.
    rewrite tagMatches_token; [now left|assumption|assumption|].
    destruct after; [reflexivity|assumption]. }
  split; [exact Hin|].
  destruct (sync_cases lowercaseTags content)
    as [[Heq Hs]|[(_ & Hnil & _)|(_ & _ & Hs)]]; rewrite ?Hp in *;
    cbn [frontmatterText bodyText hasFrontmatter] in *.
  - split; [|intros out Ho; rewrite Hs in Ho; discriminate].
    intros _. apply (Permutation_in _ (Permutation_sym (sort_perm _))).
    rewrite Heq. apply (Permutation_in _ (sort_perm _)). exact Hin.
  - rewrite Hnil in Hin. destruct Hin.
  - split; [intros Ho; rewrite Hs in Ho; discriminate|].
    intros out Ho. rewrite Hs in Ho. apply Some_inj in Ho. subst out.
    assert (In tag (sort (extractInlineTags lowercaseTags content))) as Hst
      by (apply (Permutation_in _ (sort_perm _)); exact Hin).
    rewrite buildFrontmatterWithTags_lines
      by (intros E; rewrite E in Hst; destruct Hst).
    destruct (join_member_line (tagLine tag)
                (builtLines fm (sort (extractInlineTags lowercaseTags content)) true))
      as (a & b & E).
    { apply builtLines_tags. now apply in_map. }
    exists (js "---" ++ a), (b ++ openDelim ++ body).
    rewrite framed_lines, E. now rewrite <- !app_assoc.
Qed.

(** Instance of [frontmatter_tokens_are_inline_tags]: a token in the value of
    a title field. *)
Lemma frontmatter_tokens_are_inline_tags_witness :
  let content := text ["---"; "title: #x"; "---"; "body"] in
  syncTagsToFrontmatter true content
  = Some (text ["---"; "tags:"; "  - x"; "title: #x"; "---"; "body"]) /\
  In (js "x") (extractInlineTags true content) /\
  (syncTagsToFrontmatter true content = None ->
   In (js "x") (getExistingTags (js "title: #x"))) /\
  (forall out, syncTagsToFrontmatter true content = Some out ->
   exists a b, out = a ++ [LF] ++ tagLine (js "x") ++ [LF] ++ b).
Proof.
  split; [reflexivity|].
  apply (frontmatter_tokens_are_inline_tags true
           (text ["---"; "title: #x"; "---"; "body"])
           (js "title: #x") (js "body") (js "title: ") (js "x") []);
    [reflexivity|reflexivity|discriminate|repeat constructor|exact I].
Defined.

(** ** Shape of the tags and of the lines written for them *)

Section TagShape.

Lemma isTagChar_cases (c : codeUnit) :
  isTagChar c = true ->
  48 <= c <= 57 \/ 65 <= c <= 90 \/ c = 95 \/ 97 <= c <= 122 \/ c = 45.
Proof.
  unfold isTagChar, isWordChar.
  rewrite !orb_true_iff, !andb_true_iff, !N.leb_le, !N.eqb_eq. tauto.
Qed.

Lemma isTagChar_not_ws (c : codeUnit) :
  isTagChar c = true -> isWhiteSpace c = false.
Proof.
  intros H. apply isTagChar_cases in H. unfold isWhiteSpace.
  rewrite !orb_false_iff, !andb_false_iff, !N.eqb_neq, !N.leb_gt. lia.
Qed.

Lemma isTagChar_not_LF (c : codeUnit) : isTagChar c = true -> c <> LF.
Proof. intros H. apply isTagChar_cases in H. unfold LF. lia. Qed.

Lemma isTagChar_lower (c : codeUnit) :
  isTagChar c = true -> isTagChar (lowerUnit c) = true.
Proof.
  intros H. unfold lowerUnit.
  destruct ((65 <=? c) && (c <=? 90)) eqn:E; [|exact H].
  apply andb_true_iff in E as [E1 E2]. apply N.leb_le in E1, E2.
  unfold isTagChar, isWordChar.
  rewrite !orb_true_iff, !andb_true_iff, !N.leb_le, !N.eqb_eq. lia.
Qed.

Lemma goodTag_lower (t : jsString) : goodTag t -> goodTag (toLowerCase t).
Proof.
  intros [Hne Hf]. split.
  - destruct t; [contradiction|discriminate].
  - unfold toLowerCase. apply Forall_map.
    eapply Forall_impl; [|exact Hf]. apply isTagChar_lower.
Qed.

Lemma extractInlineTags_good (lowercaseTags : bool) (content : jsString) :
  Forall goodTag (extractInlineTags lowercaseTags content).
Proof.
  apply Forall_forall. intros t Ht.
  rewrite extractInlineTags_eq, dedupe_In, in_map_iff in Ht.
  destruct Ht as (c & <- & Hc).
  pose proof (tagMatches_captures content) as H.
  rewrite Forall_forall in H. destruct (H c Hc) as [Hne Hf].
  assert (goodTag c) as Hg.
  { split; [destruct c; [discriminate|discriminate]|exact Hf]. }
  destruct lowercaseTags; [now apply goodTag_lower|exact Hg].
Qed.

Lemma sort_good (tags : list jsString) :
  Forall goodTag tags -> Forall goodTag (sort tags).
Proof.
  intros H. apply Forall_forall. intros t Ht.
  rewrite Forall_forall in H. apply H.
  apply (Permutation_in _ (Permutation_sym (sort_perm tags))). exact Ht.
Qed.

Lemma goodTag_solid (t : jsString) :
  goodTag t -> Forall (fun c => isWhiteSpace c = false) t.
Proof.
  intros [_ Hf]. eapply Forall_impl; [|exact Hf]. apply isTagChar_not_ws.
Qed.

(** [`  - ${tag}`.trim()] is [`- ${tag}`]. *)
Lemma trim_tagLine (t : jsString) :
  goodTag t -> trim (tagLine t) = js "- " ++ t.
Proof.
  intros Hg. unfold tagLine, trim, trimStart.
  change (dropWhile isWhiteSpace (js "  - " ++ t)) with (js "- " ++ t).
  apply trimEnd_app_solid; [apply Hg|now apply goodTag_solid].
Qed.

Lemma tagLine_not_key (t : jsString) : goodTag t -> isKey (tagLine t) = false.
Proof.
  intros Hg. unfold isKey. now rewrite trim_tagLine.
Qed.

Lemma tagLine_item (t : jsString) : goodTag t -> isItem (tagLine t) = true.
Proof.
  intros Hg. unfold isItem. now rewrite trim_tagLine.
Qed.

(** [trimmed.substring(1).trim()] gives the tag back. *)
Lemma tagLine_tag (t : jsString) :
  goodTag t -> trim (substring1 (trim (tagLine t))) = t.
Proof.
  intros Hg. rewrite trim_tagLine by assumption.
  change (substring1 (js "- " ++ t)) with ([32] ++ t).
  apply trim_solid; [repeat constructor|now apply goodTag_solid].
Qed.

Lemma tagLine_lineFree (t : jsString) : goodTag t -> ~ In LF (tagLine t).
Proof.
  intros [_ Hf] H. unfold tagLine in H. apply in_app_or in H as [H|H].
  - repeat (destruct H as [H|H]; [discriminate H|]). destruct H.
  - rewrite Forall_forall in Hf. exact (isTagChar_not_LF _ (Hf _ H) eq_refl).
Qed.

Lemma tagLine_not_delim (t : jsString) : tagLine t <> js "---".
Proof. unfold tagLine. discriminate. Qed.

Lemma tagLine_no_match (t : jsString) :
  goodTag t -> tagMatches (tagLine t) = [].
Proof.
  intros [_ Hf]. unfold tagLine.
  change (js "  - " ++ t) with (32 :: 32 :: 45 :: 32 :: t).
  rewrite !tagMatches_cons. cbn [N.eqb Pos.eqb andb].
  rewrite <- (app_nil_r t) at 1. now rewrite tagMatches_skip.
Qed.

End TagShape.

(** ** Field lines *)

Section Fields.

(** The field lines (the lines that are neither tag key, list item nor
    blank) come out of both line loops as they went in, in the same order. *)
Lemma removeLines_fields (lines : list jsString) (st : bool) :
  filter (fun l => negb (sectionLine l)) (removeLines lines st)
  = filter (fun l => negb (sectionLine l)) lines.
Proof.
  set (field := fun l => negb (sectionLine l)).
  revert st; induction lines as [|l r IH]; intros st; [reflexivity|].
  rewrite removeLines_step. cbn [filter].
  assert (field l = negb (isKey l || isItem l || isBlank l)) as Hf
    by reflexivity.
  destruct (isKey l), (isItem l), (isBlank l), st;
    cbn [andb orb negb filter] in *; rewrite ?Hf, ?IH; reflexivity.
Qed.


End Fields.

(** ** Reading back what the writer wrote *)

Section ReadBack.

Lemma getExistingTags_lines (fm : jsString) :
  getExistingTags fm = readLines (split LF fm) false [].
Proof. destruct fm; reflexivity. Qed.

Lemma readLines_key (r : list jsString) (st : bool) (acc : list jsString) :
  readLines (js "tags:" :: r) st acc = readLines r true acc.
Proof. rewrite readLines_step. reflexivity. Qed.

Lemma readLines_skip (pre r : list jsString) (acc : list jsString) :
  existsb isKey pre = false ->
  readLines (pre ++ r) false acc = readLines r false acc.
Proof.
  induction pre as [|l pre IH]; [reflexivity|]. cbn [existsb].
  intros H. apply orb_false_iff in H as [Hl Hp].
  simpl app. rewrite readLines_step, Hl. cbn [negb]. auto.
Qed.

Lemma readLines_tagLines (tags post acc : list jsString) :
  Forall goodTag tags ->
  readLines (map tagLine tags ++ post) true acc
  = readLines post true (acc ++ tags).
Proof.
  intros H; revert acc; induction H as [|t tags Ht _ IH]; intros acc.
  - now rewrite app_nil_r.
  - simpl map. simpl app. rewrite readLines_step.
    rewrite (tagLine_not_key _ Ht), (tagLine_item _ Ht), (tagLine_tag _ Ht).
    cbn [negb]. destruct Ht as [Hne Hf].
    destruct t as [|c t]; [contradiction|]. cbn [truthy].
    rewrite IH, <- app_assoc. reflexivity.
Qed.

Lemma readLines_closed (rest tags acc : list jsString) :
  closes rest = true ->
  readLines (fst (rebuildLines rest tags true)) true acc = acc.
Proof.
  induction rest as [|l r IH]; [reflexivity|].
  unfold closes. cbn [dropWhile]. rewrite rebuildLines_step.
  destruct (isKey l) eqn:Ek.
  - rewrite (isKey_not_item _ Ek), (isKey_not_blank _ Ek). cbn [orb].
    rewrite Ek. discriminate.
  - cbn [andb]. destruct (isItem l || isBlank l) eqn:Eib.
    + exact IH.
    + intros _. cbn [fst]. rewrite readLines_step, Ek. cbn [negb].
      apply orb_false_iff in Eib as [-> ->]. reflexivity.
Qed.

Lemma readLines_lead (lines acc : list jsString) :
  existsb isKey lines = false -> leadOK lines = true ->
  readLines lines true acc = acc.
Proof.
  induction lines as [|l r IH]; [reflexivity|].
  cbn [existsb]. intros H. apply orb_false_iff in H as [Hl Hr].
  unfold leadOK. cbn [dropWhile]. rewrite readLines_step, Hl. cbn [negb].
  destruct (isBlank l) eqn:Eb.
  - intros H. assert (isItem l = false) as ->.
    { destruct (isItem l) eqn:Ei; [|reflexivity].
      apply isItem_not_blank in Ei. congruence. }
    now apply IH.
  - intros H. apply negb_true_iff in H. now rewrite H.
Qed.

Lemma rebuildLines_no_key (lines tags : list jsString) :
  existsb isKey lines = false -> rebuildLines lines tags false = (lines, false).
Proof.
  induction lines as [|l r IH]; [reflexivity|]. cbn [existsb].
  intros H. apply orb_false_iff in H as [Hl Hr].
  rewrite rebuildLines_step, Hl, (IH Hr). reflexivity.
Qed.

Lemma rebuildLines_first_key (pre : list jsString) (k : jsString)
    (rest tags : list jsString) :
  existsb isKey pre = false -> isKey k = true ->
  rebuildLines (pre ++ k :: rest) tags false
  = (pre ++ js "tags:" :: map tagLine tags ++ fst (rebuildLines rest tags true),
     true).
Proof.
  intros Hp Hk. induction pre as [|l pre IH].
  - simpl app. now rewrite rebuildLines_step, Hk.
  - cbn [existsb] in Hp. apply orb_false_iff in Hp as [Hl Hp].
    simpl app. rewrite rebuildLines_step, Hl, (IH Hp). reflexivity.
Qed.

Lemma first_key (lines : list jsString) :
  existsb isKey lines = true ->
  exists pre k rest, lines = pre ++ k :: rest
                     /\ existsb isKey pre = false /\ isKey k = true.
Proof.
  induction lines as [|l r IH]; [discriminate|]. cbn [existsb].
  destruct (isKey l) eqn:Ek.
  - intros _. exists [], l, r. auto.
  - cbn [orb]. intros H. destruct (IH H) as (pre & k & rest & -> & Hp & Hk).
    exists (l :: pre), k, rest. cbn [existsb]. rewrite Ek, Hp. auto.
Qed.

Lemma firstSectionCloses_at (pre : list jsString) (k : jsString)
    (rest : list jsString) :
  existsb isKey pre = false -> isKey k = true ->
  firstSectionCloses (pre ++ k :: rest) = closes rest.
Proof.
  intros Hp Hk. induction pre as [|l pre IH].
  - simpl. now rewrite Hk.
  - cbn [existsb] in Hp. apply orb_false_iff in Hp as [Hl Hp].
    simpl. rewrite Hl. auto.
Qed.

Lemma rebuildLines_members (lines tags : list jsString) (st : bool)
    (x : jsString) :
  In x (fst (rebuildLines lines tags st)) ->
  In x lines \/ x = js "tags:" \/ In x (map tagLine tags).
Proof.
  revert st; induction lines as [|l r IH]; intros st; [intros []|].
  rewrite rebuildLines_step. destruct (isKey l).
  - cbn [fst]. intros [<-|H]; [auto|].
    apply in_app_or in H as [H|H]; [auto|].
    destruct (IH _ H) as [?|[?|?]]; simpl; auto.
  - destruct (st && (isItem l || isBlank l)).
    + intros H. destruct (IH _ H) as [?|[?|?]]; simpl; auto.
    + cbn [fst]. intros [<-|H]; [simpl; auto|].
      destruct (IH _ H) as [?|[?|?]]; simpl; auto.
Qed.

(** The lines dropped or replaced by the writer hold no token, so the
    rewritten lines hold the same tokens in the same order. *)
Lemma rebuildLines_tokens (before lines tags : list jsString) :
  Forall goodTag tags ->
  sectionsTokenFree before lines = true ->
  flat_map tagMatches
    (fst (rebuildLines lines tags
            (existsb isKey (takeWhile sectionLine before))))
  = flat_map tagMatches lines.
Proof.
  intros Hg. revert before; induction lines as [|l r IH]; intros before;
    [reflexivity|].
  cbn [sectionsTokenFree]. intros H. apply andb_true_iff in H as [Hl Hr].
  specialize (IH (l :: before) Hr).
  change (existsb isKey (takeWhile sectionLine (l :: before)))
    with (inTagSection before l) in IH.
  assert (inTagSection before l = true -> tagMatches l = []) as Hfree.
  { intros Hs. rewrite Hs in Hl. cbn [negb orb] in Hl. unfold tokenFree in Hl.
    destruct (tagMatches l); [reflexivity|discriminate]. }
  rewrite inTagSection_step in IH, Hfree. rewrite rebuildLines_step.
  destruct (isKey l) eqn:Ek.
  - cbn [fst flat_map]. rewrite flat_map_app, IH, (Hfree eq_refl).
    replace (flat_map tagMatches (map tagLine tags)) with (@nil jsString);
      [reflexivity|].
    clear -Hg. induction Hg as [|t tags Ht _ IHt]; [reflexivity|].
    cbn [map flat_map]. now rewrite tagLine_no_match, <- IHt.
  - destruct (isItem l || isBlank l).
    + destruct (existsb isKey (takeWhile sectionLine before)); cbn [andb].
      * cbn [flat_map]. now rewrite IH, (Hfree eq_refl).
      * cbn [fst flat_map]. now rewrite IH.
    + rewrite andb_false_r. cbn [fst flat_map]. now rewrite IH.
Qed.

Lemma leadOK_head (l : jsString) (r : list jsString) :
  leadOK (l :: r) = true -> l <> js "---".
Proof. intros H ->. discriminate H. Qed.

End ReadBack.

(** ** Parsing and scanning a document assembled from lines *)

Section Assembled.

Lemma takeWhile_tag_line (l rest : jsString) :
  takeWhile isTagChar (l ++ LF :: rest) = takeWhile isTagChar l.
Proof.
  induction l as [|c l IH]; [reflexivity|]. simpl.
  destruct (isTagChar c); [now rewrite IH|reflexivity].
Qed.

(** No capture crosses a line break. *)
Lemma tagMatches_line (l rest : jsString) :
  tagMatches (l ++ LF :: rest) = tagMatches l ++ tagMatches rest.
Proof.
  induction l as [|c l IH]; [reflexivity|].
  rewrite <- app_comm_cons, !tagMatches_cons, takeWhile_tag_line, IH.
  destruct ((c =? 35) && truthy (takeWhile isTagChar l)); reflexivity.
Qed.

Lemma tagMatches_closeDelim (body : jsString) :
  tagMatches (closeDelim ++ body) = tagMatches body.
Proof.
  change (closeDelim ++ body) with ([] ++ LF :: js "---" ++ LF :: body).
  now rewrite !tagMatches_line.
Qed.

Lemma tagMatches_lines (ls : list jsString) (body : jsString) :
  tagMatches (join [LF] ls ++ closeDelim ++ body)
  = flat_map tagMatches ls ++ tagMatches body.
Proof.
  induction ls as [|l ls IH]; [apply tagMatches_closeDelim|].
  destruct ls as [|l2 ls].
  - cbn [join flat_map]. rewrite app_nil_r.
    change (closeDelim ++ body) with (LF :: js "---" ++ LF :: body).
    rewrite tagMatches_line. f_equal.
  - rewrite join_cons by discriminate. rewrite <- !app_assoc.
    change ([LF] ++ join [LF] (l2 :: ls) ++ closeDelim ++ body)
      with (LF :: (join [LF] (l2 :: ls) ++ closeDelim ++ body)).
    rewrite tagMatches_line, IH. cbn [flat_map]. now rewrite app_assoc.
Qed.

(** The matches of a document with a block, line by line. *)
Lemma tagMatches_document (ls : list jsString) (body : jsString) :
  tagMatches (openDelim ++ join [LF] ls ++ closeDelim ++ body)
  = flat_map tagMatches ls ++ tagMatches body.
Proof.
  change (openDelim ++ join [LF] ls ++ closeDelim ++ body)
    with (js "---" ++ LF :: (join [LF] ls ++ closeDelim ++ body)).
  rewrite tagMatches_line. apply tagMatches_lines.
Qed.

Lemma tagMatches_nil_suffix (p r : jsString) :
  tagMatches (p ++ r) = [] -> tagMatches r = [].
Proof.
  intros H. destruct (tagMatches r) as [|t ts] eqn:E; [reflexivity|].
  assert (In t (tagMatches (p ++ r))) as Hin
    by (apply tagMatches_suffix; rewrite E; now left).
  rewrite H in Hin. destruct Hin.
Qed.

Lemma extractInlineTags_nil (lowercaseTags : bool) (content : jsString) :
  extractInlineTags lowercaseTags content = [] <-> tagMatches content = [].
Proof.
  rewrite extractInlineTags_eq. split.
  - intros H. destruct (tagMatches content) as [|t ts]; [reflexivity|].
    assert (In (if lowercaseTags then toLowerCase t else t)
               (@nil jsString)) as [].
    rewrite <- H. apply dedupe_In. now left.
  - intros ->. reflexivity.
Qed.

(** *** The lazy group stops at the delimiter that was written *)

Lemma first_break (l m t b : jsString) :
  ~ In LF l -> ~ In LF m -> l ++ LF :: t = m ++ LF :: b -> l = m.
Proof.
  revert m; induction l as [|c l IH]; intros [|d m] Hl Hm E.
  - reflexivity.
  - injection E as E _. exfalso. apply Hm. left. congruence.
  - injection E as E _. exfalso. apply Hl. left. congruence.
  - injection E as -> E. f_equal. apply IH; auto.
    + intros H. apply Hl. now right.
    + intros H. apply Hm. now right.
Qed.

Lemma lazyUntilClose_line (l t : jsString) :
  ~ In LF l ->
  lazyUntilClose (l ++ t) =
  match lazyUntilClose t with
  | Some (fm, body) => Some (l ++ fm, body)
  | None => None
  end.
Proof.
  induction l as [|c l IH]; intros Hl.
  - cbn [app]. destruct (lazyUntilClose t) as [[fm b]|]; reflexivity.
  - rewrite <- app_comm_cons, lazyUntilClose_unfold.
    destruct (stripPrefix closeDelim (c :: l ++ t)) as [b|] eqn:E.
    + apply stripPrefix_Some in E. injection E as E _.
      exfalso. apply Hl. now left.
    + rewrite IH by (intros H; apply Hl; now right).
      destruct (lazyUntilClose t) as [[fm b]|]; reflexivity.
Qed.

Lemma lazyUntilClose_break (l t : jsString) :
  ~ In LF l -> l <> js "---" ->
  lazyUntilClose (LF :: l ++ LF :: t) =
  match lazyUntilClose (l ++ LF :: t) with
  | Some (fm, body) => Some (LF :: fm, body)
  | None => None
  end.
Proof.
  intros Hl Hd. rewrite lazyUntilClose_unfold.
  destruct (stripPrefix closeDelim (LF :: l ++ LF :: t)) as [b|] eqn:E;
    [|reflexivity].
  apply stripPrefix_Some in E.
  change (closeDelim ++ b) with (LF :: js "---" ++ LF :: b) in E.
  injection E as E. exfalso. apply Hd.
  apply (first_break l (js "---") t b Hl); [|exact E].
  intros H. repeat (destruct H as [H|H]; [discriminate H|]). destruct H.
Qed.

Lemma lazyUntilClose_breaks (ls : list jsString) (body : jsString) :
  Forall (fun l => ~ In LF l) ls -> ~ In (js "---") ls ->
  lazyUntilClose (List.concat (map (cons LF) ls) ++ closeDelim ++ body)
  = Some (List.concat (map (cons LF) ls), body).
Proof.
  intros Hf; induction Hf as [|l ls Hl _ IH]; intros Hd.
  - cbn [map List.concat app]. rewrite lazyUntilClose_unfold.
    now rewrite stripPrefix_app.
  - cbn [map List.concat].
    assert (exists t, List.concat (map (cons LF) ls) ++ closeDelim ++ body = LF :: t)
      as [t Ht] by (destruct ls; eexists; reflexivity).
    assert (IH' := IH (fun H => Hd (or_intror H))).
    change ((LF :: l) ++ List.concat (map (cons LF) ls))
      with (LF :: l ++ List.concat (map (cons LF) ls)).
    rewrite <- app_comm_cons, <- app_assoc.
    rewrite Ht in *.
    rewrite lazyUntilClose_break; [|exact Hl|intros E; apply Hd; now left].
    rewrite lazyUntilClose_line by exact Hl.
    now rewrite IH'.
Qed.

Lemma join_breaks (l : jsString) (ls : list jsString) :
  join [LF] (l :: ls) = l ++ List.concat (map (cons LF) ls).
Proof.
  revert l; induction ls as [|l2 ls IH]; intros l.
  - cbn. now rewrite app_nil_r.
  - rewrite join_cons by discriminate. rewrite IH. reflexivity.
Qed.

(** A block written from lines that are free of line breaks and differ from
    the delimiter is parsed back as those lines. *)
Lemma parseFrontmatter_assembled (ls : list jsString) (body : jsString) :
  ls <> [] -> Forall (fun l => ~ In LF l) ls -> ~ In (js "---") (tl ls) ->
  parseFrontmatter (openDelim ++ join [LF] ls ++ closeDelim ++ body)
  = mkParsed (join [LF] ls) body true.
Proof.
  intros Hne Hf Hd. destruct ls as [|l ls]; [contradiction|].
  unfold parseFrontmatter. rewrite stripPrefix_app, join_breaks.
  rewrite <- app_assoc. inversion Hf; subst.
  rewrite lazyUntilClose_line by assumption.
  rewrite lazyUntilClose_breaks; [reflexivity|assumption|exact Hd].
Qed.

Lemma join_app (sep : jsString) (xs ys : list jsString) :
  xs <> [] -> ys <> [] ->
  join sep (xs ++ ys) = join sep xs ++ sep ++ join sep ys.
Proof.
  intros Hx Hy. induction xs as [|x xs IH]; [contradiction|].
  destruct xs as [|x2 xs].
  - simpl app. now rewrite join_cons.
  - rewrite <- app_comm_cons, join_cons, IH by discriminate.
    rewrite (join_cons sep x (x2 :: xs)) by discriminate.
    now rewrite <- !app_assoc.
Qed.

(** The metadata text the parser returns has no delimiter line after its
    first line: the lazy group would have stopped there. *)
Lemma parseFrontmatter_tail (content fm body : jsString) :
  parseFrontmatter content = mkParsed fm body true ->
  ~ In (js "---") (tl (split LF fm)).
Proof.
  intros Hp Hin.
  pose proof (parseFrontmatter_block _ _ _ Hp) as Hc.
  pose proof (parseFrontmatter_shortest _ _ _ Hp) as Hlen.
  pose proof (join_split LF fm) as Hj.
  destruct (split LF fm) as [|l1 tail] eqn:Es; [destruct Hin|].
  cbn [tl] in Hin. apply in_split in Hin as (A & C & ->).
  change (l1 :: A ++ js "---" :: C) with ((l1 :: A) ++ js "---" :: C) in Hj.
  rewrite join_app in Hj by discriminate.
  set (a := join [LF] (l1 :: A)) in *.
  assert (List.length fm <= List.length a)%nat as Hle.
  { destruct C as [|c2 C].
    - apply (Hlen a ((js "---" ++ [LF]) ++ body)).
      rewrite Hc at 1. rewrite <- Hj at 1.
      rewrite <- !app_assoc. reflexivity.
    - apply (Hlen a (join [LF] (c2 :: C) ++ closeDelim ++ body)).
      rewrite Hc at 1. rewrite <- Hj at 1.
      rewrite (join_cons [LF] (js "---") (c2 :: C)) by discriminate.
      rewrite <- !app_assoc. reflexivity. }
  rewrite <- Hj in Hle. rewrite !length_app in Hle.
  destruct C; simpl in Hle; lia.
Qed.

End Assembled.

(** ** Idempotence *)

Section Idempotence.

Variable tags : list jsString.
Hypothesis tags_good : Forall goodTag tags.

Lemma freshLines_read :
  readLines (js "tags:" :: map tagLine tags) false [] = tags.
Proof.
  rewrite readLines_key, <- (app_nil_r (map tagLine tags)).
  now rewrite readLines_tagLines.
Qed.

Lemma tagLines_tokens : flat_map tagMatches (map tagLine tags) = [].
Proof.
  pose proof tags_good as H. clear tags_good.
  induction H as [|t ts Ht _ IH]; [reflexivity|].
  cbn [map flat_map]. now rewrite (tagLine_no_match _ Ht), IH.
Qed.

Lemma builtLines_members (fm : jsString) (h : bool) (x : jsString) :
  In x (builtLines fm tags h) ->
  x = js "tags:" \/ In x (map tagLine tags) \/ In x (split LF fm).
Proof.
  unfold builtLines. destruct (negb h || negb (truthy fm)).
  - intros [<-|H]; auto.
  - pose proof (rebuildLines_members (split LF fm) tags false x) as Hm.
    destruct (rebuildLines (split LF fm) tags false) as [nl ins].
    cbn [fst] in Hm. destruct (negb ins).
    + intros H. apply in_app_or in H as [[<-|H]|H]; auto.
      destruct (Hm H) as [?|[?|?]]; auto.
    + intros H. destruct (Hm H) as [?|[?|?]]; auto.
Qed.

Lemma builtLines_lineFree (fm : jsString) (h : bool) :
  Forall (fun l => ~ In LF l) (builtLines fm tags h).
Proof.
  apply Forall_forall. intros x Hx.
  destruct (builtLines_members _ _ _ Hx) as [->|[H|H]].
  - intros H. repeat (destruct H as [H|H]; [discriminate H|]). destruct H.
  - apply in_map_iff in H as (t & <- & Ht).
    apply tagLine_lineFree. rewrite Forall_forall in tags_good. auto.
  - pose proof (split_free LF fm) as Hf. rewrite Forall_forall in Hf. auto.
Qed.

Lemma builtLines_no_delim (fm : jsString) (h : bool) :
  ~ In (js "---") (tl (split LF fm)) ->
  wellFormedMeta fm = true ->
  ~ In (js "---") (tl (builtLines fm tags h)).
Proof.
  intros Htail Hwf.
  assert (~ In (js "---") (map tagLine tags)) as Hfresh.
  { intros H. apply in_map_iff in H as (t & E & _).
    exact (tagLine_not_delim _ E). }
  unfold builtLines. destruct (negb h || negb (truthy fm)); [exact Hfresh|].
  unfold wellFormedMeta in Hwf. apply andb_true_iff in Hwf as [_ Hsec].
  destruct (existsb isKey (split LF fm)) eqn:Ek.
  - destruct (first_key _ Ek) as (pre & k & rest & E & Hp & Hk).
    rewrite E in *. rewrite (rebuildLines_first_key _ _ _ _ Hp Hk).
    cbn [negb].
    assert (forall x, In x (fst (rebuildLines rest tags true)) ->
                      x = js "---" -> In x rest) as Hpost.
    { intros x Hx ->.
      destruct (rebuildLines_members _ _ _ _ Hx) as [?|[?|?]];
        [assumption|discriminate|contradiction]. }
    destruct pre as [|l1 pre']; cbn [app tl] in *; intros H.
    + apply in_app_or in H as [H|H]; [contradiction|].
      apply Htail. now apply Hpost.
    + apply Htail. apply in_or_app.
      apply in_app_or in H as [H|[H|H]]; [now left|discriminate H|].
      apply in_app_or in H as [H|H]; [contradiction|].
      right. right. now apply Hpost.
  - rewrite (rebuildLines_no_key _ _ Ek). cbn [negb app tl].
    intros H. apply in_app_or in H as [H|H]; [contradiction|].
    destruct (split LF fm) as [|l1 tail]; [destruct H|].
    destruct H as [H|H]; [exact (leadOK_head _ _ Hsec H)|].
    exact (Htail H).
Qed.

Lemma builtLines_nonempty (fm : jsString) (h : bool) :
  tags <> [] -> builtLines fm tags h <> [].
Proof.
  intros Hne E. destruct tags as [|t ts]; [contradiction|].
  pose proof (builtLines_tags fm (t :: ts) h (tagLine t) (or_introl eq_refl))
    as H.
  rewrite E in H. destruct H.
Qed.

Lemma builtLines_read (fm : jsString) (h : bool) :
  wellFormedMeta fm = true ->
  readLines (builtLines fm tags h) false [] = tags.
Proof.
  intros Hwf. unfold builtLines.
  destruct (negb h || negb (truthy fm)); [apply freshLines_read|].
  unfold wellFormedMeta in Hwf.
  apply andb_true_iff in Hwf as [_ Hsec].
  destruct (existsb isKey (split LF fm)) eqn:Ek.
  - destruct (first_key _ Ek) as (pre & k & rest & E & Hp & Hk).
    rewrite E in *.
    rewrite (rebuildLines_first_key _ _ _ _ Hp Hk). cbn [negb].
    rewrite (firstSectionCloses_at _ _ _ Hp Hk) in Hsec.
    rewrite (readLines_skip _ _ _ Hp), readLines_key.
    rewrite (readLines_tagLines _ _ _ tags_good).
    now apply readLines_closed.
  - rewrite (rebuildLines_no_key _ _ Ek). cbn [negb].
    rewrite <- app_comm_cons, readLines_key.
    rewrite (readLines_tagLines _ _ _ tags_good).
    now apply readLines_lead.
Qed.

Lemma builtLines_tokens (fm : jsString) (h : bool) :
  wellFormedMeta fm = true ->
  flat_map tagMatches (builtLines fm tags h)
  = if h then flat_map tagMatches (split LF fm) else [].
Proof.
  intros Hwf. unfold wellFormedMeta in Hwf.
  apply andb_true_iff in Hwf as [Hfree _].
  unfold builtLines. destruct h; cbn [negb orb].
  - destruct fm as [|c fm]; [cbn [truthy negb flat_map]; now rewrite tagLines_tokens|].
    cbn [truthy negb].
    pose proof (rebuildLines_tokens [] (split LF (c :: fm)) tags
                  tags_good Hfree) as Ht.
    cbn [takeWhile existsb] in Ht.
    destruct (rebuildLines (split LF (c :: fm)) tags false) as [nl ins].
    cbn [fst] in Ht. destruct (negb ins); [|exact Ht].
    rewrite flat_map_app. cbn [flat_map]. now rewrite tagLines_tokens.
  - cbn [flat_map]. now rewrite tagLines_tokens.
Qed.

End Idempotence.

Section IdempotenceProof.

Variable lowercaseTags : bool.
Variable content : jsString.

Let p := parseFrontmatter content.
Let inline := extractInlineTags lowercaseTags content.
Let written := builtLines (frontmatterText p) (sort inline) (hasFrontmatter p).

(** What is written when at least one inline tag is found, as a document
    assembled from lines. *)
Lemma sync_rewrite_assembled :
  inline <> [] ->
  openDelim
  ++ buildFrontmatterWithTags (frontmatterText p) (sort inline)
                              (hasFrontmatter p)
  ++ openDelim ++ bodyText p
  = openDelim ++ join [LF] written ++ closeDelim ++ bodyText p.
Proof.
  intros Hne. rewrite buildFrontmatterWithTags_lines.
  - fold written. unfold closeDelim. rewrite <- !app_assoc. reflexivity.
  - intros E. apply sort_nil_inv in E. contradiction.
Qed.

Lemma sync_rewrite_tokens :
  wellFormedMeta (frontmatterText p) = true ->
  tagMatches (openDelim ++ join [LF] written ++ closeDelim ++ bodyText p)
  = tagMatches content.
Proof.
  intros Hwf. rewrite tagMatches_document. unfold written.
  rewrite builtLines_tokens;
    [|apply sort_good, extractInlineTags_good|exact Hwf].
  destruct (parseFrontmatter_cases content) as [[Hb Hc]|Hn];
    [fold p in Hb, Hc|fold p in Hn].
  - rewrite Hb.
    transitivity (tagMatches (openDelim
                              ++ join [LF] (split LF (frontmatterText p))
                              ++ closeDelim ++ bodyText p)).
    + now rewrite tagMatches_document.
    + rewrite join_split. now rewrite <- Hc.
  - rewrite Hn. reflexivity.
Qed.

Lemma sync_rewrite_settles :
  wellFormedMeta (frontmatterText p) = true -> inline <> [] ->
  syncTagsToFrontmatter lowercaseTags
    (openDelim ++ join [LF] written ++ closeDelim ++ bodyText p) = None.
Proof.
  intros Hwf Hne.
  assert (Forall goodTag (sort inline)) as Hg
    by apply sort_good, extractInlineTags_good.
  assert (sort inline <> []) as Hsne
    by (intros E; apply sort_nil_inv in E; contradiction).
  assert (written <> []) as Hw by now apply builtLines_nonempty.
  assert (Forall (fun l => ~ In LF l) written) as Hfree
    by now apply builtLines_lineFree.
  apply sync_None_iff.
  rewrite parseFrontmatter_assembled; [|assumption|assumption|].
  - cbn [frontmatterText].
    rewrite getExistingTags_lines, (split_join _ _ Hw Hfree).
    unfold written at 1. rewrite (builtLines_read _ Hg _ _ Hwf).
    rewrite extractInlineTags_eq, (sync_rewrite_tokens Hwf).
    rewrite <- extractInlineTags_eq. apply sort_idem.
  - apply builtLines_no_delim; [|exact Hwf].
    destruct (parseFrontmatter_cases content) as [[Hb _]|Hn];
      [fold p in Hb|fold p in Hn].
    + apply (parseFrontmatter_tail content _ (bodyText p)).
      fold p. destruct p as [fm0 b0 h0]. cbn in Hb. now rewrite Hb.
    + rewrite Hn. intros [].
Qed.

End IdempotenceProof.

(** C1 (as amended).  On a document whose rewrite can be read back (see
    [readableRewrite] and [wellFormedMeta]), applying
    [syncTagsToFrontmatter] to the content it has written, with the same
    lowercase flag, writes nothing. *)
Theorem sync_idempotent (lowercaseTags : bool) (content out : jsString) :
  readableRewrite lowercaseTags content = true ->
  syncTagsToFrontmatter lowercaseTags content = Some out ->
  syncTagsToFrontmatter lowercaseTags out = None.
Proof.
  intros Hscope Hs. unfold readableRewrite in Hscope.
  destruct (sync_cases lowercaseTags content)
    as [[_ Hn]|[(_ & Hnil & Hb & Hr)|(_ & Hne & Hw)]].
  - rewrite Hn in Hs. discriminate.
  - rewrite Hr in Hs. apply Some_inj in Hs.
    rewrite Hb, Hnil in Hscope.
    apply andb_true_iff in Hscope as [Hblank Hbody].
    apply negb_true_iff in Hblank.
    rewrite Hblank in Hs. subst out.
    apply sync_None_iff.
    destruct (getExistingTags
                (frontmatterText
                   (parseFrontmatter (bodyText (parseFrontmatter content)))));
      [|discriminate].
    assert (extractInlineTags lowercaseTags
              (bodyText (parseFrontmatter content)) = []) as ->;
      [|reflexivity].
    apply extractInlineTags_nil. apply extractInlineTags_nil in Hnil.
    destruct (parseFrontmatter_cases content) as [[_ Hcont]|Hcont];
      [|rewrite Hcont in Hb; discriminate].
    rewrite Hcont in Hnil. rewrite !app_assoc in Hnil.
    now apply tagMatches_nil_suffix in Hnil.
  - rewrite Hw in Hs. apply Some_inj in Hs. subst out.
    rewrite (sync_rewrite_assembled _ _ Hne).
    apply sync_rewrite_settles; [|exact Hne].
    destruct (parseFrontmatter_cases content) as [[Hb _]|Hn].
    + rewrite Hb in Hscope.
      destruct (extractInlineTags lowercaseTags content);
        [contradiction|exact Hscope].
    + rewrite Hn. reflexivity.
Qed.

(** Instance of [sync_idempotent]: a block with a title, an old tag list and
    an author field that holds a token. *)
Lemma sync_idempotent_witness :
  let content := text ["---"; "title: x"; "tags:"; "  - old"; "author: #y";
                       "---"; "body #New"] in
  let out := text ["---"; "title: x"; "tags:"; "  - new"; "  - y";
                   "author: #y"; "---"; "body #New"] in
  readableRewrite true content = true /\
  syncTagsToFrontmatter true content = Some out /\
  syncTagsToFrontmatter true out = None.
Proof.
  split; [reflexivity|]. split; [reflexivity|].
  apply (sync_idempotent true
           (text ["---"; "title: x"; "tags:"; "  - old"; "author: #y";
                  "---"; "body #New"]));
    reflexivity.
Defined.

(** C1 as stated fails: a recorded list item written with its [#] is a token
    for the extractor; the first sync rewrites the list without the [#], the
    second finds no inline tag and deletes the block. *)
Lemma sync_twice_hash_in_list_item :
  let content := text ["---"; "tags:"; "  - #foo"; "---"; "body"] in
  let out := text ["---"; "tags:"; "  - foo"; "---"; "body"] in
  syncTagsToFrontmatter true content = Some out /\
  syncTagsToFrontmatter true out <> None.
Proof. split; [reflexivity|discriminate]. Qed.

(** The other requirements of [readableRewrite] are not idle either.  A
    second tag-key line right below the first is rewritten too, and the
    result records every tag twice. *)
Example sync_twice_adjacent_keys :
  let out := text ["---"; "tags:"; "  - a"; "tags:"; "  - a"; "---"; "#a"] in
  syncTagsToFrontmatter true (text ["---"; "tags:"; "tags:"; "---"; "#a"])
  = Some out /\
  syncTagsToFrontmatter true out = Some out.
Proof. split; reflexivity. Qed.

(** A list item at the head of a metadata text without tag key is read as a
    recorded tag once the section is written above it. *)
Example sync_twice_leading_item :
  let out := text ["---"; "tags:"; "  - a"; "- foo"; "---"; "#a"] in
  syncTagsToFrontmatter true (text ["---"; "- foo"; "---"; "#a"]) = Some out /\
  syncTagsToFrontmatter true out
  = Some (text ["---"; "tags:"; "  - a"; "---"; "#a"]).
Proof. split; reflexivity. Qed.

(** A body that starts with a block of its own is synced in its turn once
    the block above it is deleted. *)
Example sync_twice_block_in_body :
  let out := text ["---"; "tags:"; "  - b"; "---"; ""] in
  syncTagsToFrontmatter true
    (text ["---"; "tags:"; "  - a"; "---"; "---"; "tags:"; "  - b"; "---"; ""])
  = Some out /\
  syncTagsToFrontmatter true out = Some [].
Proof. split; reflexivity. Qed.

(** * Further properties of the engine *)

(** ** Comparison and extraction *)

Section MoreExtraction.

Lemma arraysEqual_sym (a b : list jsString) : arraysEqual a b = arraysEqual b a.
Proof.
  destruct (arraysEqual a b) eqn:E1, (arraysEqual b a) eqn:E2; try reflexivity.
  - apply arraysEqual_eq in E1. subst.
    rewrite (proj2 (arraysEqual_eq b b) eq_refl) in E2. discriminate.
  - apply arraysEqual_eq in E2. subst.
    rewrite (proj2 (arraysEqual_eq a a) eq_refl) in E1. discriminate.
Qed.

Lemma lowerUnit_not_upper (c : codeUnit) : isUpperUnit (lowerUnit c) = false.
Proof.
  unfold lowerUnit, isUpperUnit.
  destruct ((65 <=? c) && (c <=? 90)) eqn:E; [|exact E].
  apply andb_true_iff in E as [E1 E2]. apply N.leb_le in E1, E2.
  apply andb_false_iff. right. apply N.leb_gt. lia.
Qed.

Lemma tagMatches_tokenAt (content t : jsString) :
  In t (tagMatches content) <-> exists a b, tokenAt content a t b.
Proof.
  split.
  - induction content as [|c r IH]; [intros []|].
    rewrite tagMatches_cons.
    destruct ((c =? 35) && truthy (takeWhile isTagChar r)) eqn:E.
    + apply andb_true_iff in E as [Ec Et]. apply N.eqb_eq in Ec. subst c.
      intros [<-|H].
      * exists [], (dropWhile isTagChar r). unfold tokenAt.
        cbn [app]. rewrite takeWhile_dropWhile.
        repeat split.
        -- destruct (takeWhile isTagChar r); [discriminate|discriminate].
        -- apply takeWhile_Forall.
        -- apply dropWhile_head.
      * destruct (IH H) as (a & b & -> & Hrest).
        exists (35 :: a), b. split; [reflexivity|exact Hrest].
    + intros H. destruct (IH H) as (a & b & -> & Hrest).
      exists (c :: a), b. split; [reflexivity|exact Hrest].
  - intros (a & b & -> & Hne & Hw & Hb).
    apply tagMatches_suffix. rewrite tagMatches_token by assumption. now left.
Qed.

Lemma dedupeFrom_map_dedupeFrom (f : jsString -> jsString)
    (l seen seen' : list jsString) :
  (forall x, In x seen -> In (f x) seen') ->
  dedupeFrom seen' (map f (dedupeFrom seen l)) = dedupeFrom seen' (map f l).
Proof.
  revert seen seen'; induction l as [|x l IH]; intros seen seen' Hs;
    [reflexivity|].
  cbn [dedupeFrom map]. destruct (mem x seen) eqn:Ex.
  - apply mem_In in Ex. apply Hs in Ex. apply mem_In in Ex.
    rewrite Ex. now apply IH.
  - cbn [map dedupeFrom]. destruct (mem (f x) seen') eqn:Ef.
    + apply IH. intros y [<-|Hy]; [now apply mem_In|auto].
    + f_equal. apply IH. intros y [<-|Hy]; [now left|right; auto].
Qed.

End MoreExtraction.

(** X1.  [arraysEqual] is equality of arrays: it answers true exactly when
    the two arrays have the same length and the same string at every index,
    and its answer does not depend on the order of its arguments. *)
Theorem arraysEqual_exact (a b : list jsString) :
  (arraysEqual a b = true <->
   List.length a = List.length b
   /\ forall i, nth_error a i = nth_error b i) /\
  arraysEqual a b = arraysEqual b a.
Proof.
  split; [|apply arraysEqual_sym].
  rewrite arraysEqual_eq. split.
  - intros ->. auto.
  - intros [_ H]. revert b H; induction a as [|x a IH]; intros [|y b] H.
    + reflexivity.
    + specialize (H 0%nat). discriminate.
    + specialize (H 0%nat). discriminate.
    + pose proof (H 0%nat) as H0. injection H0 as ->. f_equal.
      apply IH. intros i. exact (H (S i)).
Qed.

(** X2.  The comparison of [syncTagsToFrontmatter] ignores the order of the
    tags: nothing is written exactly when the recorded tags are a
    rearrangement of the extracted inline tags. *)
Theorem sync_no_change_iff_permutation (lowercaseTags : bool)
    (content : jsString) :
  syncTagsToFrontmatter lowercaseTags content = None <->
  Permutation (getExistingTags (frontmatterText (parseFrontmatter content)))
              (extractInlineTags lowercaseTags content).
Proof.
  rewrite sync_None_iff. split.
  - intros H. rewrite (sort_perm (getExistingTags _)), H.
    apply Permutation_sym, sort_perm.
  - intros H. apply sorted_perm_unique; try apply sort_sorted.
    rewrite <- (sort_perm (getExistingTags _)), H. apply sort_perm.
Qed.

(** X3.  Every tag [extractInlineTags] returns is a non-empty string of
    ASCII letters, digits, underscores and hyphens; when lowercasing is on it
    holds no capital letter. *)
Theorem extractInlineTags_tag_shape (lowercaseTags : bool)
    (content t : jsString) :
  In t (extractInlineTags lowercaseTags content) ->
  t <> [] /\ Forall (fun c => isTagChar c = true) t /\
  (lowercaseTags = true -> Forall (fun c => isUpperUnit c = false) t).
Proof.
  intros Hin.
  pose proof (extractInlineTags_good lowercaseTags content) as Hg.
  rewrite Forall_forall in Hg. destruct (Hg _ Hin) as [Hne Hf].
  repeat split; [exact Hne|exact Hf|].
  intros ->. rewrite extractInlineTags_eq, dedupe_In, in_map_iff in Hin.
  destruct Hin as (w & <- & _). unfold toLowerCase.
  apply Forall_map, Forall_forall. intros c _. apply lowerUnit_not_upper.
Qed.

(** Instance of [extractInlineTags_tag_shape]. *)
Lemma extractInlineTags_tag_shape_witness :
  js "co-pilot" <> [] /\ Forall (fun c => isTagChar c = true) (js "co-pilot") /\
  (true = true -> Forall (fun c => isUpperUnit c = false) (js "co-pilot")).
Proof.
  apply (extractInlineTags_tag_shape true (js "Fly with the #Co-Pilot, now.")).
  left. reflexivity.
Defined.

(** X4.  The extractor finds exactly the tokens of the text: a string is
    returned if and only if it is the stored form of a non-empty run of tag
    characters that stands right behind a [#] somewhere in the text and is
    not continued by another tag character. *)
Theorem extractInlineTags_iff_token (lowercaseTags : bool)
    (content t : jsString) :
  In t (extractInlineTags lowercaseTags content) <->
  exists a w b, tokenAt content a w b /\ t = normalise lowercaseTags w.
Proof.
  rewrite extractInlineTags_eq, dedupe_In, in_map_iff. split.
  - intros (w & <- & Hw). apply tagMatches_tokenAt in Hw as (a & b & H).
    exists a, w, b. auto.
  - intros (a & w & b & H & ->). exists w. split; [reflexivity|].
    apply tagMatches_tokenAt. eauto.
Qed.

(** X5.  Lowercasing composes with extraction: the tags found with
    lowercasing on are the tags found with lowercasing off, lowered and
    deduplicated again, in the same order of first occurrence. *)
Theorem extractInlineTags_lower_of_plain (content : jsString) :
  extractInlineTags true content
  = dedupe (map toLowerCase (extractInlineTags false content)).
Proof.
  rewrite !extractInlineTags_eq. rewrite map_id. unfold dedupe at 3.
  symmetry. apply dedupeFrom_map_dedupeFrom. intros x [].
Qed.

(** ** The reader *)

Section MoreReader.

Lemma dropWhile_idem {A} (p : A -> bool) (l : list A) :
  dropWhile p (dropWhile p l) = dropWhile p l.
Proof.
  pose proof (dropWhile_head p l) as H.
  destruct (dropWhile p l) as [|c r]; [reflexivity|]. simpl. now rewrite H.
Qed.

Lemma trimEnd_idem (x : jsString) : trimEnd (trimEnd x) = trimEnd x.
Proof.
  unfold trimEnd. now rewrite rev_involutive, dropWhile_idem.
Qed.

(** [trim] gives a string that [trim] leaves alone. *)
Lemma trim_idem (s : jsString) : trim (trim s) = trim s.
Proof.
  unfold trim at 2 3. unfold trimStart.
  pose proof (dropWhile_head isWhiteSpace s) as H.
  destruct (dropWhile isWhiteSpace s) as [|c x]; [reflexivity|].
  rewrite (trimEnd_cons _ _ H). unfold trim, trimStart. cbn [dropWhile].
  rewrite H, (trimEnd_cons _ _ H). now rewrite trimEnd_idem.
Qed.

Lemma inlineArrayTags_nonempty (cap t : jsString) :
  In t (inlineArrayTags cap) -> t <> [].
Proof.
  unfold inlineArrayTags. intros H. apply filter_In in H as [_ H].
  intros ->. discriminate.
Qed.

Lemma readLines_nonempty (lines : list jsString) (st : bool)
    (acc : list jsString) :
  Forall (fun t => t <> []) acc ->
  Forall (fun t => t <> []) (readLines lines st acc).
Proof.
  revert st acc; induction lines as [|l r IH]; intros st acc Hacc;
    [exact Hacc|].
  rewrite readLines_step. destruct (isKey l).
  - destruct (inlineArrayMatch (trim l)) as [cap|]; [|now apply IH].
    apply Forall_forall. intros t. apply inlineArrayTags_nonempty.
  - destruct st; cbn [negb]; [|now apply IH].
    destruct (isItem l).
    + apply IH. destruct (trim (substring1 (trim l))) as [|c t] eqn:E;
        [exact Hacc|].
      cbn [truthy]. apply Forall_app. split; [exact Hacc|].
      constructor; [discriminate|constructor].
    + destruct (isBlank l); [now apply IH|exact Hacc].
Qed.

Lemma readLines_trimmed (lines : list jsString) (st : bool)
    (acc : list jsString) :
  blockForm lines = true ->
  Forall (fun t => trim t = t) acc ->
  Forall (fun t => trim t = t) (readLines lines st acc).
Proof.
  revert st acc; induction lines as [|l r IH]; intros st acc Hb Hacc;
    [exact Hacc|].
  cbn [blockForm forallb] in Hb. apply andb_true_iff in Hb as [Hl Hr].
  rewrite readLines_step. destruct (isKey l).
  - cbn [negb orb] in Hl.
    destruct (inlineArrayMatch (trim l)) as [cap|]; [discriminate|].
    now apply IH.
  - destruct st; cbn [negb]; [|now apply IH].
    destruct (isItem l).
    + apply IH; [exact Hr|].
      destruct (truthy (trim (substring1 (trim l)))); [|exact Hacc].
      apply Forall_app. split; [exact Hacc|].
      constructor; [apply trim_idem|constructor].
    + destruct (isBlank l); [now apply IH|exact Hacc].
Qed.

Lemma readLines_keyless (lines : list jsString) :
  existsb isKey lines = false -> readLines lines false [] = [].
Proof.
  intros H. rewrite <- (app_nil_r lines). now rewrite readLines_skip.
Qed.

Lemma upToLastBracket_closing (x : jsString) :
  upToLastBracket (x ++ [93]) = Some x.
Proof.
  induction x as [|c x IH]; [reflexivity|].
  cbn [app upToLastBracket]. now rewrite IH.
Qed.

Lemma In_join (sep : jsString) (ls : list jsString) (c : codeUnit) :
  In c (join sep ls) -> In c sep \/ exists l, In l ls /\ In c l.
Proof.
  induction ls as [|l1 ls IH]; [intros []|].
  destruct ls as [|l2 ls].
  - simpl. intros H. right. exists l1. auto.
  - rewrite join_cons by discriminate. rewrite !in_app_iff.
    intros [H|[H|H]].
    + right. exists l1. split; [now left|assumption].
    + now left.
    + destruct (IH H) as [?|[l' [H1 H2]]]; [now left|].
      right. exists l'. split; [now right|assumption].
Qed.

Lemma stripQuotes_app (a b : jsString) :
  stripQuotes (a ++ b) = stripQuotes a ++ stripQuotes b.
Proof. apply filter_app. Qed.

(** Splitting at the commas a list joined with comma and space. *)
Lemma split_comma_join (e : jsString) (es : list jsString) :
  Forall (fun x => ~ In 44 x) (e :: es) ->
  split 44 (join (js ", ") (e :: es)) = e :: map (cons 32) es.
Proof.
  revert e; induction es as [|e2 es IH]; intros e Hf.
  - inversion Hf; subst. cbn [join map]. now apply split_line.
  - inversion Hf; subst. rewrite join_cons by discriminate.
    change (js ", " ++ join (js ", ") (e2 :: es))
      with (44 :: (32 :: join (js ", ") (e2 :: es))).
    rewrite split_app_sep by assumption. f_equal.
    specialize (IH e2 H2). cbn [map].
    cbn [split]. change (32 =? 44) with false. cbn iota.
    now rewrite IH.
Qed.

End MoreReader.

(** X6.  [getExistingTags] never returns an empty string; and when no
    tag-key line of the metadata text holds an inline array, every tag it
    returns is free of leading and trailing white space. *)
Theorem getExistingTags_tags_clean (frontmatterText t : jsString) :
  In t (getExistingTags frontmatterText) ->
  t <> [] /\
  (blockForm (split LF frontmatterText) = true -> trim t = t).
Proof.
  rewrite getExistingTags_lines. intros Hin. split.
  - pose proof (readLines_nonempty (split LF frontmatterText) false []
                  (Forall_nil _)) as H.
    rewrite Forall_forall in H. now apply H.
  - intros Hb.
    pose proof (readLines_trimmed (split LF frontmatterText) false [] Hb
                  (Forall_nil _)) as H.
    rewrite Forall_forall in H. now apply H.
Qed.

(** Instance of [getExistingTags_tags_clean]: an item padded with blanks and
    an item without content. *)
Lemma getExistingTags_tags_clean_witness :
  getExistingTags (text ["tags:"; "  -   spaced  "; "  -"; "  - b"])
  = [js "spaced"; js "b"] /\
  js "spaced" <> [] /\
  (blockForm (split LF (text ["tags:"; "  -   spaced  "; "  -"; "  - b"]))
   = true -> trim (js "spaced") = js "spaced").
Proof.
  split; [reflexivity|].
  apply (getExistingTags_tags_clean
           (text ["tags:"; "  -   spaced  "; "  -"; "  - b"])).
  left. reflexivity.
Defined.

(** X7.  A metadata text without a tag-key line records no tag, whatever
    list items it holds. *)
Theorem getExistingTags_without_key (frontmatterText : jsString) :
  existsb isKey (split LF frontmatterText) = false ->
  getExistingTags frontmatterText = [].
Proof.
  intros H. rewrite getExistingTags_lines. now apply readLines_keyless.
Qed.

(** Instance of [getExistingTags_without_key]: the items of another list. *)
Lemma getExistingTags_without_key_witness :
  getExistingTags (text ["aliases:"; "  - one"; "  - two"]) = [].
Proof.
  apply (getExistingTags_without_key (text ["aliases:"; "  - one"; "  - two"])).
  reflexivity.
Defined.

(** X8.  The inline-array form is read element by element: a metadata text
    that is the line [tags: [e1, e2, ...]], the elements being tags written
    bare, in double quotes or in single quotes, records exactly these tags,
    in this order. *)
Theorem getExistingTags_inline_array (q : jsString) (tags : list jsString) :
  q = [] \/ q = [34] \/ q = [39] ->
  Forall goodTag tags ->
  getExistingTags
    (js "tags: [" ++ join (js ", ") (map (fun t => q ++ t ++ q) tags) ++ js "]")
  = tags.
Proof.
  intros Hq Hg.
  set (elems := map (fun t => q ++ t ++ q) tags).
  assert (Forall (fun c => isWhiteSpace c = false) q
          /\ Forall (fun c => c <> 44 /\ isLineTerminator c = false) q
          /\ stripQuotes q = []) as (Hqs & Hqc & Hqq).
  { destruct Hq as [-> | [-> | ->]]; repeat split; repeat constructor;
      discriminate. }
  assert (forall t c, goodTag t -> In c t ->
                      isWhiteSpace c = false /\ c <> 44
                      /\ isLineTerminator c = false
                      /\ negb ((c =? 39) || (c =? 34)) = true) as Hchar.
  { intros t c [_ Hf] Hc. rewrite Forall_forall in Hf.
    pose proof (isTagChar_cases c (Hf c Hc)) as Hcases.
    split; [apply isTagChar_not_ws; auto|].
    split; [lia|]. split.
    - unfold isLineTerminator.
      rewrite !orb_false_iff, !N.eqb_neq. lia.
    - rewrite negb_true_iff, orb_false_iff, !N.eqb_neq. lia. }
  assert (Forall (fun e => Forall (fun c => isWhiteSpace c = false) e
                           /\ Forall (fun c => c <> 44
                                     /\ isLineTerminator c = false) e) elems)
    as Helems.
  { unfold elems. apply Forall_map. rewrite Forall_forall in Hg.
    apply Forall_forall. intros t Ht. split.
    - repeat (apply Forall_app; split); try exact Hqs.
      apply Forall_forall. intros c Hc. now apply (Hchar t c (Hg t Ht)).
    - repeat (apply Forall_app; split); try exact Hqc.
      apply Forall_forall. intros c Hc.
      destruct (Hchar t c (Hg t Ht) Hc) as (_ & ? & ? & _). auto. }
  set (cap := join (js ", ") elems).
  assert (Forall (fun c => isLineTerminator c = false) cap) as Hcap.
  { apply Forall_forall. intros c Hc. apply In_join in Hc as [Hc|(e & He & Hc)].
    - destruct Hc as [<-|[<-|[]]]; reflexivity.
    - rewrite Forall_forall in Helems. destruct (Helems e He) as [_ Hf].
      rewrite Forall_forall in Hf. now apply Hf. }
  set (line := js "tags: [" ++ cap ++ js "]").
  assert (~ In LF line) as Hfree.
  { unfold line. rewrite !in_app_iff. intros [H|[H|H]].
    - repeat (destruct H as [H|H]; [discriminate H|]). destruct H.
    - rewrite Forall_forall in Hcap. specialize (Hcap _ H). discriminate.
    - destruct H as [H|[]]. discriminate H. }
  assert (trim line = line) as Htrim.
  { unfold trim, trimStart, line.
    change (dropWhile isWhiteSpace (js "tags: [" ++ cap ++ js "]"))
      with (js "tags: [" ++ cap ++ js "]").
    rewrite (app_assoc (js "tags: [")).
    apply trimEnd_app_solid; [discriminate|repeat constructor]. }
  assert (inlineArrayMatch line = Some cap) as Hmatch.
  { assert (inlineArrayAt line = Some cap) as Hat.
    { unfold inlineArrayAt, line.
      change (js "tags: [" ++ cap ++ js "]")
        with (js "tags:" ++ 32 :: 91 :: cap ++ [93]).
      rewrite stripPrefix_app. cbn [dropWhile].
      change (isWhiteSpace 32) with true. cbn iota.
      change (isWhiteSpace 91) with false. cbn iota.
      change (91 =? 91) with true. cbn iota.
      rewrite <- (app_nil_r (cap ++ [93])).
      rewrite takeWhile_app_stop.
      - apply upToLastBracket_closing.
      - apply Forall_app. split; [|repeat constructor].
        eapply Forall_impl; [|exact Hcap]. intros c Hc. cbn beta.
        now rewrite Hc.
      - exact I. }
    destruct line; cbn [inlineArrayMatch]; now rewrite Hat. }
  rewrite getExistingTags_lines. fold line.
  rewrite (split_line _ _ Hfree), readLines_step.
  assert (isKey line = true) as ->.
  { unfold isKey. rewrite Htrim, isTagsKey_startsWith.
    apply startsWith_true. exists (32 :: 91 :: cap ++ [93]). reflexivity. }
  rewrite Htrim, Hmatch. unfold inlineArrayTags, cap.
  destruct tags as [|t ts]; [reflexivity|].
  unfold elems in *. cbn [map] in *.
  rewrite split_comma_join.
  2:{ eapply Forall_impl; [|exact Helems]. intros e [_ Hf] Hin.
      rewrite Forall_forall in Hf. destruct (Hf _ Hin) as [Hn _].
      now apply Hn. }
  assert (forall t pad, goodTag t ->
            Forall (fun c => isWhiteSpace c = true) pad ->
            truthy (stripQuotes (trim (pad ++ q ++ t ++ q))) = true
            /\ stripQuotes (trim (pad ++ q ++ t ++ q)) = t) as Hone.
  { intros t0 pad Ht0 Hpad.
    assert (stripQuotes (trim (pad ++ q ++ t0 ++ q)) = t0) as E.
    { rewrite trim_solid; [|exact Hpad|].
      - rewrite !stripQuotes_app, Hqq. cbn [app]. rewrite app_nil_r.
        apply forallb_filter_id. apply forallb_forall. intros c Hc.
        now apply (Hchar t0 c Ht0).
      - repeat (apply Forall_app; split); try exact Hqs.
        now apply goodTag_solid. }
    split; [|exact E]. rewrite E. destruct Ht0 as [Hne _].
    destruct t0; [contradiction|reflexivity]. }
  inversion Hg as [|? ? Ht Hts]; subst.
  cbn [map filter].
  destruct (Hone t [] Ht (Forall_nil _)) as [Htr Heq]. cbn [app] in Htr, Heq.
  rewrite Htr, Heq. f_equal.
  clear -Hts Hone. induction Hts as [|t2 ts Ht2 _ IH]; [reflexivity|].
  cbn [map filter].
  assert (Forall (fun c => isWhiteSpace c = true) [32]) as Hpad
    by (repeat constructor).
  destruct (Hone t2 [32] Ht2 Hpad) as [Htr Heq].
  match goal with
  | |- (if ?b then ?x :: _ else _) = _ =>
      replace b with true by (symmetry; exact Htr);
      replace x with t2 by (symmetry; exact Heq)
  end.
  now f_equal.
Qed.

(** Instance of [getExistingTags_inline_array]: three quoted elements. *)
Lemma getExistingTags_inline_array_witness :
  getExistingTags (js "tags: ['a', 'b-2', 'c_3']")
  = [js "a"; js "b-2"; js "c_3"].
Proof.
  apply (getExistingTags_inline_array [39] [js "a"; js "b-2"; js "c_3"]).
  - right. right. reflexivity.
  - repeat constructor; discriminate.
Defined.

(** ** The remover and the writer *)

Section MoreWriter.

Lemma removeLines_members (lines : list jsString) (st : bool) (x : jsString) :
  In x (removeLines lines st) -> In x lines.
Proof.
  revert st; induction lines as [|l r IH]; intros st; [intros []|].
  rewrite removeLines_step. destruct (isKey l).
  - intros H. right. eauto.
  - destruct (st && (isItem l || isBlank l)).
    + intros H. right. eauto.
    + intros [<-|H]; [now left|right; eauto].
Qed.

Lemma removeLines_keyless (lines : list jsString) (st : bool) :
  existsb isKey (removeLines lines st) = false.
Proof.
  revert st; induction lines as [|l r IH]; intros st; [reflexivity|].
  rewrite removeLines_step. destruct (isKey l) eqn:Ek; [apply IH|].
  destruct (st && (isItem l || isBlank l)); [apply IH|].
  cbn [existsb]. now rewrite Ek, IH.
Qed.

Lemma removeLines_lineFree (lines : list jsString) (st : bool) :
  Forall (fun l => ~ In LF l) lines ->
  Forall (fun l => ~ In LF l) (removeLines lines st).
Proof.
  intros H. apply Forall_forall. intros x Hx.
  rewrite Forall_forall in H. apply H. eapply removeLines_members. exact Hx.
Qed.

(** The lines [removeTags] keeps, split again, are the lines it kept. *)
Lemma removeTags_lines (fm : jsString) :
  removeLines (split LF fm) false = []
  \/ split LF (removeTags fm) = removeLines (split LF fm) false.
Proof.
  unfold removeTags.
  pose proof (removeLines_lineFree (split LF fm) false (split_free LF fm)) as Hf.
  destruct (removeLines (split LF fm) false) as [|k ks] eqn:E; [now left|].
  right. apply split_join; [discriminate|exact Hf].
Qed.

Lemma join_after_lines (xs ls : list jsString) :
  ls <> [] ->
  join [LF] (xs ++ ls)
  = List.concat (map (fun x => x ++ [LF]) xs) ++ join [LF] ls.
Proof.
  intros Hne. induction xs as [|x xs IH]; [reflexivity|].
  rewrite <- app_comm_cons, join_cons.
  - cbn [map List.concat]. rewrite IH. now rewrite <- !app_assoc.
  - destruct xs; [exact Hne|discriminate].
Qed.

Lemma rebuildLines_items (sec rest tags : list jsString) :
  forallb (fun l => isItem l || isBlank l) sec = true ->
  rebuildLines (sec ++ rest) tags true = rebuildLines rest tags true.
Proof.
  induction sec as [|l r IH]; [reflexivity|]. cbn [forallb].
  intros H. apply andb_true_iff in H as [Hl Hr].
  rewrite <- app_comm_cons, rebuildLines_step, Hl. cbn [andb].
  destruct (isKey l) eqn:Ek; [|auto].
  apply orb_true_iff in Hl as [Hl|Hl].
  - rewrite (isKey_not_item _ Ek) in Hl. discriminate.
  - rewrite (isKey_not_blank _ Ek) in Hl. discriminate.
Qed.

Lemma sectionCloses_read (fm : jsString) (tags : list jsString) (h : bool) :
  Forall goodTag tags ->
  sectionCloses (split LF fm) = true ->
  readLines (builtLines fm tags h) false [] = tags.
Proof.
  intros Hg Hsec. unfold builtLines.
  destruct (negb h || negb (truthy fm)); [now apply freshLines_read|].
  unfold sectionCloses in Hsec.
  destruct (existsb isKey (split LF fm)) eqn:Ek.
  - destruct (first_key _ Ek) as (pre & k & rest & E & Hp & Hk).
    rewrite E in *.
    rewrite (rebuildLines_first_key _ _ _ _ Hp Hk). cbn [negb].
    rewrite (firstSectionCloses_at _ _ _ Hp Hk) in Hsec.
    rewrite (readLines_skip _ _ _ Hp), readLines_key.
    rewrite (readLines_tagLines _ _ _ Hg).
    now apply readLines_closed.
  - rewrite (rebuildLines_no_key _ _ Ek). cbn [negb].
    rewrite <- app_comm_cons, readLines_key.
    rewrite (readLines_tagLines _ _ _ Hg).
    now apply readLines_lead.
Qed.


End MoreWriter.

(** X9.  What [removeTags] returns records no tag: reading it with
    [getExistingTags] gives the empty list, whatever the metadata text
    was. *)
Theorem getExistingTags_after_removeTags (frontmatterText : jsString) :
  getExistingTags (removeTags frontmatterText) = [].
Proof.
  destruct (removeTags_lines frontmatterText) as [E|E].
  - unfold removeTags. now rewrite E.
  - rewrite getExistingTags_lines, E.
    apply readLines_keyless, removeLines_keyless.
Qed.

(** X10.  [removeTags] is idempotent: removing the tag sections from its own
    result changes nothing. *)
Theorem removeTags_idempotent (frontmatterText : jsString) :
  removeTags (removeTags frontmatterText) = removeTags frontmatterText.
Proof.
  destruct (removeTags_lines frontmatterText) as [E|E].
  - unfold removeTags at 2. rewrite E. unfold removeTags at 2. rewrite E.
    reflexivity.
  - unfold removeTags at 1. rewrite E.
    rewrite (removeLines_no_key _ (removeLines_keyless _ _)). reflexivity.
Qed.

(** X11.  On a metadata text without a tag-key line [removeTags] returns the
    text as it is, list items of other keys included. *)
Theorem removeTags_without_key (frontmatterText : jsString) :
  existsb isKey (split LF frontmatterText) = false ->
  removeTags frontmatterText = frontmatterText.
Proof.
  intros H. unfold removeTags. rewrite (removeLines_no_key _ H).
  apply join_split.
Qed.

(** Instance of [removeTags_without_key]. *)
Lemma removeTags_without_key_witness :
  removeTags (text ["title: x"; "aliases:"; "  - one"; ""; "author: y"])
  = text ["title: x"; "aliases:"; "  - one"; ""; "author: y"].
Proof.
  apply (removeTags_without_key
           (text ["title: x"; "aliases:"; "  - one"; ""; "author: y"])).
  reflexivity.
Defined.

(** X12.  Insertion into an existing block: when the non-empty metadata text
    has no tag-key line, [buildFrontmatterWithTags] returns the line
    [tags:], one list-item line per tag in the order given, then the whole
    metadata text unchanged, and a final line break. *)
Theorem buildFrontmatterWithTags_prepends (frontmatterText : jsString)
    (tags : list jsString) :
  truthy frontmatterText = true ->
  existsb isKey (split LF frontmatterText) = false ->
  buildFrontmatterWithTags frontmatterText tags true
  = js "tags:" ++ [LF] ++ tagLinesText tags ++ frontmatterText ++ [LF].
Proof.
  intros Ht Hk. unfold buildFrontmatterWithTags. rewrite Ht. cbn [negb orb].
  rewrite (rebuildLines_no_key _ _ Hk). cbn [negb].
  rewrite <- app_comm_cons, join_cons
    by (pose proof (split_nonempty LF frontmatterText);
        destruct (map tagLine tags); [assumption|discriminate]).
  rewrite (join_after_lines _ _ (split_nonempty LF frontmatterText)).
  rewrite join_split. unfold tagLinesText. rewrite map_map.
  now rewrite <- !app_assoc.
Qed.

(** Instance of [buildFrontmatterWithTags_prepends]. *)
Lemma buildFrontmatterWithTags_prepends_witness :
  buildFrontmatterWithTags (text ["title: x"; "author: y"])
                           [js "a"; js "b"] true
  = text ["tags:"; "  - a"; "  - b"; "title: x"; "author: y"; ""].
Proof.
  apply (buildFrontmatterWithTags_prepends (text ["title: x"; "author: y"])
           [js "a"; js "b"]); reflexivity.
Defined.

(** X13.  Replacement in place: when the metadata text has one tag-key line,
    [buildFrontmatterWithTags] keeps the lines above it, puts [tags:] and one
    list-item line per tag where the tag-key line stood, drops the list-item
    and blank lines of the old section, and keeps the lines from the end of
    the section on. *)
Theorem buildFrontmatterWithTags_in_place (frontmatterText : jsString)
    (tags pre : list jsString) (key : jsString) (sec rest : list jsString) :
  split LF frontmatterText = pre ++ key :: sec ++ rest ->
  existsb isKey pre = false -> isKey key = true ->
  forallb (fun l => isItem l || isBlank l) sec = true ->
  match rest with [] => True | e :: _ => sectionLine e = false end ->
  existsb isKey rest = false ->
  buildFrontmatterWithTags frontmatterText tags true
  = join [LF] (pre ++ js "tags:" :: map tagLine tags ++ rest) ++ [LF].
Proof.
  intros Hs Hpre Hkey Hsec Hend Hrest. unfold buildFrontmatterWithTags.
  assert (truthy frontmatterText = true) as ->.
  { destruct frontmatterText; [|reflexivity]. cbn [split] in Hs.
    destruct pre as [|p pre].
    - injection Hs as <- _. discriminate Hkey.
    - injection Hs as _ Hs. destruct pre; discriminate Hs. }
  cbn [negb orb]. rewrite Hs.
  rewrite (rebuildLines_first_key _ _ _ _ Hpre Hkey). cbn [negb].
  rewrite (rebuildLines_items _ _ _ Hsec).
  destruct rest as [|e r]; [reflexivity|].
  cbn [existsb] in Hrest. apply orb_false_iff in Hrest as [He Hr].
  unfold sectionLine in Hend. rewrite He in Hend. cbn [orb] in Hend.
  rewrite rebuildLines_step, He, Hend. cbn [andb].
  now rewrite (rebuildLines_no_key _ _ Hr).
Qed.

(** Instance of [buildFrontmatterWithTags_in_place]: a title above, an
    author below, a blank line inside the old section. *)
Lemma buildFrontmatterWithTags_in_place_witness :
  buildFrontmatterWithTags
    (text ["title: x"; "tags:"; "  - old"; ""; "author: y"])
    [js "a"; js "b"] true
  = text ["title: x"; "tags:"; "  - a"; "  - b"; "author: y"; ""].
Proof.
  apply (buildFrontmatterWithTags_in_place
           (text ["title: x"; "tags:"; "  - old"; ""; "author: y"])
           [js "a"; js "b"]
           [js "title: x"] (js "tags:") [js "  - old"; []] [js "author: y"]);
    reflexivity.
Defined.



(** X15.  Writing then reading: when the tag section of the metadata text is
    closed (see [sectionCloses]), what [buildFrontmatterWithTags] returns,
    without its final line break, is read by [getExistingTags] as exactly
    the tags that were written, in the same order. *)
Theorem buildFrontmatterWithTags_read_back (frontmatterText : jsString)
    (tags : list jsString) (hadFrontmatter : bool) :
  Forall goodTag tags -> tags <> [] ->
  sectionCloses (split LF frontmatterText) = true ->
  exists meta,
    buildFrontmatterWithTags frontmatterText tags hadFrontmatter
    = meta ++ [LF]
    /\ getExistingTags meta = tags.
Proof.
  intros Hg Hne Hsec.
  exists (join [LF] (builtLines frontmatterText tags hadFrontmatter)).
  split; [now apply buildFrontmatterWithTags_lines|].
  rewrite getExistingTags_lines, split_join.
  - now apply sectionCloses_read.
  - now apply builtLines_nonempty.
  - now apply builtLines_lineFree.
Qed.

(** Instance of [buildFrontmatterWithTags_read_back]. *)
Lemma buildFrontmatterWithTags_read_back_witness :
  exists meta,
    buildFrontmatterWithTags
      (text ["title: x"; "tags: [old, older]"; "author: y"])
      [js "a"; js "b"] true
    = meta ++ [LF]
    /\ getExistingTags meta = [js "a"; js "b"].
Proof.
  apply (buildFrontmatterWithTags_read_back
           (text ["title: x"; "tags: [old, older]"; "author: y"])
           [js "a"; js "b"] true);
    [repeat constructor; discriminate|discriminate|reflexivity].
Defined.

(** ** The parser and the orchestrator *)

(** Closes a goal [~ In x l] on a literal list [l] that does not hold [x]. *)
Ltac not_member :=
  let H := fresh "H" in
  intros H; cbn in H;
  repeat (destruct H as [H|H]; [discriminate H|]); exact H.

Section MoreSync.

Lemma parseFrontmatter_has_block (content fm body : jsString) :
  content = openDelim ++ fm ++ closeDelim ++ body ->
  hasFrontmatter (parseFrontmatter content) = true.
Proof.
  intros ->. unfold parseFrontmatter. rewrite stripPrefix_app.
  destruct (lazyUntilClose (fm ++ closeDelim ++ body)) as [[fm0 b0]|] eqn:E;
    [reflexivity|].
  exfalso. exact (lazyUntilClose_None _ E fm body eq_refl).
Qed.

Lemma join_lines_text (xs : list jsString) :
  xs <> [] ->
  join [LF] xs ++ [LF] = List.concat (map (fun x => x ++ [LF]) xs).
Proof.
  intros Hne.
  assert (join [LF] (xs ++ [[]]) = join [LF] xs ++ [LF]) as <-.
  { rewrite join_app by (assumption || discriminate). reflexivity. }
  rewrite join_after_lines by discriminate. apply app_nil_r.
Qed.

Lemma extractInlineTags_same_matches (lowercaseTags : bool)
    (a b : jsString) :
  tagMatches a = tagMatches b ->
  extractInlineTags lowercaseTags a = extractInlineTags lowercaseTags b.
Proof. intros H. unfold extractInlineTags. now rewrite H. Qed.

Lemma wellFormedMeta_nil : wellFormedMeta [] = true.
Proof. reflexivity. Qed.

Lemma sort_NoDup (l : list jsString) : NoDup l -> NoDup (sort l).
Proof. apply Permutation_NoDup, sort_perm. Qed.

Lemma sort_In (l : list jsString) (t : jsString) : In t (sort l) <-> In t l.
Proof.
  split.
  - apply Permutation_in, Permutation_sym, sort_perm.
  - apply Permutation_in, sort_perm.
Qed.

End MoreSync.

(** X16.  Insertion into a document without block: what is written is the
    delimiter line, the line [tags:], one list-item line per tag, the
    delimiter line, and the whole original document; the tags written are
    the extracted inline tags in ascending code-unit order, each once. *)
Theorem sync_inserts_sorted_block (lowercaseTags : bool)
    (content out : jsString) :
  hasFrontmatter (parseFrontmatter content) = false ->
  syncTagsToFrontmatter lowercaseTags content = Some out ->
  exists tags,
    out = openDelim ++ js "tags:" ++ [LF] ++ tagLinesText tags
          ++ openDelim ++ content
    /\ Sorted le_str tags /\ NoDup tags
    /\ forall t, In t tags <-> In t (extractInlineTags lowercaseTags content).
Proof.
  intros Hb Hs.
  destruct (sync_cases lowercaseTags content)
    as [[_ Hn]|[(_ & _ & Hb' & _)|(_ & Hne & Hw)]]; [congruence|congruence|].
  destruct (parseFrontmatter_cases content) as [[Hb' _]|Hp]; [congruence|].
  rewrite Hw, Hp in Hs. cbn [frontmatterText bodyText hasFrontmatter] in Hs.
  apply Some_inj in Hs. subst out.
  exists (sort (extractInlineTags lowercaseTags content)).
  split; [|split; [apply sort_sorted|split;
                   [apply sort_NoDup, extractInlineTags_NoDup|apply sort_In]]].
  unfold buildFrontmatterWithTags. cbn [negb orb]. unfold tagLinesText.
  rewrite <- (map_map tagLine (fun x => x ++ [LF])), <- join_lines_text.
  - now rewrite <- !app_assoc.
  - intros E. apply map_eq_nil, sort_nil_inv in E. contradiction.
Qed.

(** Instance of [sync_inserts_sorted_block]: the example of the README. *)
Lemma sync_inserts_sorted_block_witness :
  exists tags,
    text ["---"; "tags:"; "  - galaxy"; "  - luke"; "  - together"; "---";
          "#Luke, you and #together rule the #galaxy, #luke."]
    = openDelim ++ js "tags:" ++ [LF] ++ tagLinesText tags ++ openDelim
      ++ js "#Luke, you and #together rule the #galaxy, #luke."
    /\ Sorted le_str tags /\ NoDup tags
    /\ forall t, In t tags <->
                 In t (extractInlineTags true
                         (js "#Luke, you and #together rule the #galaxy, #luke.")).
Proof.
  apply (sync_inserts_sorted_block true
           (js "#Luke, you and #together rule the #galaxy, #luke."));
    reflexivity.
Defined.

(** X17.  Round trip of an insertion: the document written for a document
    without block is parsed as a block followed by the original document as
    body; the tags read from that block are the extracted inline tags in
    ascending order, and the written block adds no inline tag. *)
Theorem sync_insertion_round_trip (lowercaseTags : bool)
    (content out : jsString) :
  hasFrontmatter (parseFrontmatter content) = false ->
  syncTagsToFrontmatter lowercaseTags content = Some out ->
  bodyText (parseFrontmatter out) = content /\
  hasFrontmatter (parseFrontmatter out) = true /\
  Sorted le_str (getExistingTags (frontmatterText (parseFrontmatter out))) /\
  Permutation (getExistingTags (frontmatterText (parseFrontmatter out)))
              (extractInlineTags lowercaseTags content) /\
  extractInlineTags lowercaseTags out
  = extractInlineTags lowercaseTags content.
Proof.
  intros Hb Hs.
  destruct (sync_cases lowercaseTags content)
    as [[_ Hn]|[(_ & _ & Hb' & _)|(_ & Hne & Hw)]]; [congruence|congruence|].
  destruct (parseFrontmatter_cases content) as [[Hb' _]|Hp]; [congruence|].
  rewrite Hw in Hs. apply Some_inj in Hs.
  rewrite (sync_rewrite_assembled _ _ Hne) in Hs. subst out.
  assert (wellFormedMeta (frontmatterText (parseFrontmatter content)) = true)
    as Hwf by now rewrite Hp.
  assert (Forall goodTag (sort (extractInlineTags lowercaseTags content)))
    as Hg by apply sort_good, extractInlineTags_good.
  assert (sort (extractInlineTags lowercaseTags content) <> []) as Hsne
    by (intros E; apply sort_nil_inv in E; contradiction).
  rewrite parseFrontmatter_assembled.
  - cbn [frontmatterText bodyText hasFrontmatter].
    rewrite getExistingTags_lines, split_join;
      [|now apply builtLines_nonempty|now apply builtLines_lineFree].
    rewrite (builtLines_read _ Hg _ _ Hwf).
    repeat split.
    + now rewrite Hp.
    + apply sort_sorted.
    + apply Permutation_sym, sort_perm.
    + apply extractInlineTags_same_matches. now apply sync_rewrite_tokens.
  - now apply builtLines_nonempty.
  - now apply builtLines_lineFree.
  - apply builtLines_no_delim; [|exact Hwf]. rewrite Hp. intros [].
Qed.

(** Instance of [sync_insertion_round_trip]. *)
Lemma sync_insertion_round_trip_witness :
  let content := js "#b and #A, then #b again" in
  let out := text ["---"; "tags:"; "  - a"; "  - b"; "---";
                   "#b and #A, then #b again"] in
  syncTagsToFrontmatter true content = Some out /\
  bodyText (parseFrontmatter out) = content /\
  hasFrontmatter (parseFrontmatter out) = true /\
  Sorted le_str (getExistingTags (frontmatterText (parseFrontmatter out))) /\
  Permutation (getExistingTags (frontmatterText (parseFrontmatter out)))
              (extractInlineTags true content) /\
  extractInlineTags true out = extractInlineTags true content.
Proof.
  split; [reflexivity|].
  apply (sync_insertion_round_trip true (js "#b and #A, then #b again"));
    reflexivity.
Defined.

(** X18.  Whenever at least one inline tag is extracted and something is
    written, the document written starts with a metadata block: the parser
    reports a block on it. *)
Theorem sync_result_has_block (lowercaseTags : bool) (content out : jsString) :
  extractInlineTags lowercaseTags content <> [] ->
  syncTagsToFrontmatter lowercaseTags content = Some out ->
  hasFrontmatter (parseFrontmatter out) = true.
Proof.
  intros Hne Hs.
  destruct (sync_cases lowercaseTags content)
    as [[_ Hn]|[(_ & Hnil & _)|(_ & _ & Hw)]]; [congruence|contradiction|].
  rewrite Hw in Hs. apply Some_inj in Hs.
  rewrite (sync_rewrite_assembled _ _ Hne) in Hs. symmetry in Hs.
  now apply parseFrontmatter_has_block in Hs.
Qed.

(** Instance of [sync_result_has_block]: a block whose first metadata line
    is itself a delimiter line. *)
Lemma sync_result_has_block_witness :
  syncTagsToFrontmatter true (text ["---"; "---"; "x"; "---"; "#a"])
  = Some (text ["---"; "tags:"; "  - a"; "---"; "x"; "---"; "#a"]) /\
  hasFrontmatter
    (parseFrontmatter (text ["---"; "tags:"; "  - a"; "---"; "x"; "---"; "#a"]))
  = true.
Proof.
  split; [reflexivity|].
  apply (sync_result_has_block true (text ["---"; "---"; "x"; "---"; "#a"]));
    [discriminate|reflexivity].
Defined.

(** X19.  A document that yields no inline tag is written to exactly when
    its metadata block records at least one tag; in particular a document
    without block and without token is never touched. *)
Theorem sync_without_tokens (lowercaseTags : bool) (content : jsString) :
  extractInlineTags lowercaseTags content = [] ->
  (syncTagsToFrontmatter lowercaseTags content = None <->
   getExistingTags (frontmatterText (parseFrontmatter content)) = []) /\
  (hasFrontmatter (parseFrontmatter content) = false ->
   syncTagsToFrontmatter lowercaseTags content = None).
Proof.
  intros Hnil.
  assert (syncTagsToFrontmatter lowercaseTags content = None <->
          getExistingTags (frontmatterText (parseFrontmatter content)) = [])
    as Hiff.
  { rewrite sync_None_iff, Hnil. split.
    - apply sort_nil_inv.
    - intros ->. reflexivity. }
  split; [exact Hiff|].
  intros Hb. apply Hiff.
  destruct (parseFrontmatter_cases content) as [[Hb' _]|Hp]; [congruence|].
  now rewrite Hp.
Qed.

(** Instance of [sync_without_tokens]: a document that starts with a
    delimiter line that is never closed. *)
Lemma sync_without_tokens_witness :
  syncTagsToFrontmatter true (text ["---"; "tags:"; "  - a"; "no end"]) = None.
Proof.
  apply (sync_without_tokens true (text ["---"; "tags:"; "  - a"; "no end"]));
    reflexivity.
Defined.

(** X20.  The block ends at the first closing delimiter: the metadata text
    the parser returns does not contain a line break followed by a delimiter
    line, and none of its lines after the first is the delimiter. *)
Theorem parseFrontmatter_stops_at_first_delimiter (content : jsString) :
  hasFrontmatter (parseFrontmatter content) = true ->
  (forall a b,
     frontmatterText (parseFrontmatter content) <> a ++ closeDelim ++ b) /\
  ~ In (js "---") (tl (split LF (frontmatterText (parseFrontmatter content)))).
Proof.
  intros Hb.
  destruct (parseFrontmatter content) as [fm body h] eqn:Hp.
  cbn [hasFrontmatter frontmatterText] in *. subst h. split.
  - intros a b E.
    pose proof (parseFrontmatter_shortest _ _ _ Hp a
                  (b ++ closeDelim ++ body)) as Hlen.
    rewrite (parseFrontmatter_block _ _ _ Hp) in Hlen at 1.
    rewrite E in Hlen at 1. rewrite <- !app_assoc in Hlen.
    specialize (Hlen eq_refl). rewrite E, !length_app in Hlen.
    change (List.length closeDelim) with 5%nat in Hlen. lia.
  - exact (parseFrontmatter_tail _ _ _ Hp).
Qed.

(** Instance of [parseFrontmatter_stops_at_first_delimiter]: the second
    delimiter line closes the block, the third belongs to the body. *)
Lemma parseFrontmatter_stops_at_first_delimiter_witness :
  let content := text ["---"; "title: x"; "---"; "body"; "---"; "more"] in
  parseFrontmatter content
  = mkParsed (js "title: x") (text ["body"; "---"; "more"]) true /\
  (forall a b,
     frontmatterText (parseFrontmatter content) <> a ++ closeDelim ++ b) /\
  ~ In (js "---") (tl (split LF (frontmatterText (parseFrontmatter content)))).
Proof.
  split; [reflexivity|].
  apply (parseFrontmatter_stops_at_first_delimiter
           (text ["---"; "title: x"; "---"; "body"; "---"; "more"])).
  reflexivity.
Defined.

(** X21.  Round trip of a block: a document assembled from the delimiter
    line, metadata lines joined by line breaks, the closing delimiter and any
    body is parsed back into exactly that metadata text and that body,
    provided no metadata line holds a line break and none after the first is
    the delimiter. *)
Theorem parseFrontmatter_round_trip (lines : list jsString) (body : jsString) :
  lines <> [] ->
  Forall (fun l => ~ In LF l) lines ->
  ~ In (js "---") (tl lines) ->
  parseFrontmatter (openDelim ++ join [LF] lines ++ closeDelim ++ body)
  = mkParsed (join [LF] lines) body true.
Proof. apply parseFrontmatter_assembled. Qed.

(** Instance of [parseFrontmatter_round_trip]: the body holds delimiter
    lines of its own. *)
Lemma parseFrontmatter_round_trip_witness :
  parseFrontmatter
    (openDelim ++ join [LF] [js "title: x"; js "tags:"; js "  - a"]
     ++ closeDelim ++ text ["---"; "body"; "---"; ""])
  = mkParsed (join [LF] [js "title: x"; js "tags:"; js "  - a"])
             (text ["---"; "body"; "---"; ""]) true.
Proof.
  apply (parseFrontmatter_round_trip
           [js "title: x"; js "tags:"; js "  - a"]
           (text ["---"; "body"; "---"; ""]));
    [discriminate|repeat (constructor; [not_member|]); constructor
    |not_member].
Defined.



(** ** Composition of the extractor and extent of the reader *)

Section MoreComposition.

Lemma takeWhile_tag_stop (l rest : jsString) (c : codeUnit) :
  isTagChar c = false ->
  takeWhile isTagChar (l ++ c :: rest) = takeWhile isTagChar l.
Proof.
  intros Hc. induction l as [|x l IH]; simpl; [now rewrite Hc|].
  destruct (isTagChar x); [now rewrite IH|reflexivity].
Qed.

(** No capture crosses a unit that is neither a tag character nor [#]. *)
Lemma tagMatches_separator (l rest : jsString) (c : codeUnit) :
  isTagChar c = false -> c <> 35 ->
  tagMatches (l ++ c :: rest) = tagMatches l ++ tagMatches rest.
Proof.
  intros Hc Hh. induction l as [|x l IH].
  - cbn [app]. rewrite tagMatches_cons.
    apply N.eqb_neq in Hh. now rewrite Hh.
  - rewrite <- app_comm_cons, !tagMatches_cons.
    rewrite (takeWhile_tag_stop _ _ _ Hc), IH.
    destruct ((x =? 35) && truthy (takeWhile isTagChar l)); reflexivity.
Qed.

Lemma dedupeFrom_app_dedupeFrom (seen a c : list jsString) :
  dedupeFrom seen (dedupeFrom seen a ++ c) = dedupeFrom seen (a ++ c).
Proof.
  revert seen; induction a as [|x a IH]; intros seen; [reflexivity|].
  cbn [dedupeFrom app]. destruct (mem x seen) eqn:Ex.
  - apply IH.
  - cbn [dedupeFrom app]. rewrite Ex. f_equal. apply IH.
Qed.

Lemma dedupeFrom_app_dedupe (seen a b : list jsString) :
  dedupeFrom seen (a ++ dedupe b) = dedupeFrom seen (a ++ b).
Proof.
  revert seen; induction a as [|x a IH]; intros seen.
  - cbn [app]. unfold dedupe.
    pose proof (dedupeFrom_map_dedupeFrom (fun t => t) b [] seen) as H.
    rewrite !map_id in H. apply H. intros y [].
  - cbn [dedupeFrom app]. destruct (mem x seen); now rewrite IH.
Qed.

Lemma dedupe_app_dedupe (a b : list jsString) :
  dedupe (dedupe a ++ dedupe b) = dedupe (a ++ b).
Proof.
  unfold dedupe at 1 2. rewrite dedupeFrom_app_dedupeFrom.
  apply dedupeFrom_app_dedupe.
Qed.


End MoreComposition.

(** X23.  Extraction composes over separators: when two texts are put
    together with a unit between them that is neither a tag character nor
    [#] (a blank, a line break, a comma), the tags of the whole are the tags
    of the first text followed by those of the second, deduplicated. *)
Theorem extractInlineTags_app (lowercaseTags : bool) (a b : jsString)
    (c : codeUnit) :
  isTagChar c = false -> c <> 35 ->
  extractInlineTags lowercaseTags (a ++ c :: b)
  = dedupe (extractInlineTags lowercaseTags a
            ++ extractInlineTags lowercaseTags b).
Proof.
  intros Hc Hh. rewrite !extractInlineTags_eq.
  rewrite (tagMatches_separator _ _ _ Hc Hh), map_app.
  symmetry. apply dedupe_app_dedupe.
Qed.

(** Instance of [extractInlineTags_app]: two lines that share a tag. *)
Lemma extractInlineTags_app_witness :
  extractInlineTags true (js "#b #a" ++ LF :: js "#c #A")
  = dedupe (extractInlineTags true (js "#b #a")
            ++ extractInlineTags true (js "#c #A")).
Proof.
  apply (extractInlineTags_app true (js "#b #a") (js "#c #A") LF);
    [reflexivity|discriminate].
Defined.


